(** * jam-conformance-dashboard: the aggregation script [index.ts]

    A shallow embedding of the script that folds per-branch fuzz summaries
    into a result table, renders it as Markdown and splices it into the
    README between two marker comments.

    The repository holds two versions of the script: [src/index.ts] (the
    "full" variant: identifiers may contain underscores, a designated team is
    listed first, one table row per trace, trace links) and
    [src/unnamed/part_000] (the "simplified" variant: digits only, plain
    sort, one table row per team).  Both are embedded; a [Variant] selects
    between them where they differ.

    Strings are JavaScript strings, that is sequences of UTF-16 code units,
    because the default [Array.prototype.sort] order, [indexOf],
    [substring] and the regular expression are all defined on them.

    The embedding starts from what the script reads (the listing of the
    branches, their summary files, the README) and ends with what it writes:
    the merged report and the README.  The calls to git and the progress
    lines of the console are left out: no property below depends on them. *)

From Stdlib Require Import String Ascii DecimalString.
From stdpp Require Import base numbers list sorting.

Local Open Scope N_scope.

(** ** JavaScript strings *)

Abbreviation jsstring := (list N).

(** An ASCII literal as a JavaScript string. *)
Definition js (s : string) : jsstring :=
  map N_of_ascii (list_ascii_of_string s).

(** [arr.join(sep)] *)
Fixpoint join (sep : jsstring) (l : list jsstring) : jsstring :=
  match l with
  | [] => []
  | [x] => x
  | x :: l' => x ++ sep ++ join sep l'
  end.

(** [`${n}`] for a non-negative integer counter. *)
Definition numToString (n : nat) : jsstring :=
  js (NilZero.string_of_uint (Nat.to_uint n)).

(** [s.startsWith(p)] *)
Fixpoint startsWith (s p : jsstring) : bool :=
  match p, s with
  | [], _ => true
  | _ :: _, [] => false
  | c :: p', d :: s' => (c =? d) && startsWith s' p'
  end.

(** [s.endsWith(p)] *)
Definition endsWith (s p : jsstring) : bool :=
  startsWith (reverse s) (reverse p).

(** The position of the first occurrence of [p] in [s], counted from [i]. *)
Fixpoint indexFrom (i : Z) (s p : jsstring) : Z :=
  if startsWith s p then i
  else match s with
       | [] => (-1)%Z
       | _ :: s' => indexFrom (i + 1)%Z s' p
       end.

(** [s.indexOf(p)]: the first occurrence, or [-1]. *)
Definition indexOf (s p : jsstring) : Z := indexFrom 0%Z s p.

(** [s.substring(a, b)] for [0 <= a <= b] and [s.substring(a)] for [0 <= a],
    as at their call sites; an index past the end is clamped to the
    length, as JavaScript does. *)
Definition substring2 (s : jsstring) (a b : Z) : jsstring :=
  take (Z.to_nat b - Z.to_nat a)%nat (drop (Z.to_nat a) s).
Definition substring1 (s : jsstring) (a : Z) : jsstring :=
  drop (Z.to_nat a) s.

(** [s.replace(p, "")] with a string pattern: the first occurrence only. *)
Definition removeFirst (s p : jsstring) : jsstring :=
  let i := indexOf s p in
  if (i <? 0)%Z then s
  else take (Z.to_nat i) s ++ drop (Z.to_nat i + length p)%nat s.

(** [content.split("\n")] *)
Fixpoint splitLines (s : jsstring) : list jsstring :=
  match s with
  | [] => [[]]
  | c :: s' =>
      if c =? 10 then [] :: splitLines s'
      else match splitLines s' with
           | l :: ls => (c :: l) :: ls
           | [] => [[c]]
           end
  end.

(** The comparison of the default [sort()]: strings are ordered by their
    code units, a proper prefix before the longer string.  The result is
    negative, zero or positive as a comparator's is. *)
Fixpoint defaultCompare (a b : jsstring) : Z :=
  match a, b with
  | [], [] => 0%Z
  | [], _ :: _ => (-1)%Z
  | _ :: _, [] => 1%Z
  | c :: a', d :: b' =>
      if c <? d then (-1)%Z
      else if d <? c then 1%Z
      else defaultCompare a' b'
  end.

(** ** [Array.prototype.sort]

    ECMAScript leaves the algorithm open but requires the sort to be stable
    and, for a consistent comparator, to deliver the elements in comparator
    order; a stable insertion sort is the reference behaviour.  An element
    [x] stays in front of [y] when [cmp x y <= 0]. *)
Section Sort.
Context {A : Type} (cmp : A → A → Z).

Fixpoint sortInsert (x : A) (l : list A) : list A :=
  match l with
  | [] => [x]
  | y :: l' =>
      if (cmp x y <=? 0)%Z then x :: y :: l' else y :: sortInsert x l'
  end.

Fixpoint sortBy (l : list A) : list A :=
  match l with
  | [] => []
  | x :: l' => sortInsert x (sortBy l')
  end.

(** The order a comparator stands for. *)
Definition inOrder (x y : A) : Prop := (cmp x y <= 0)%Z.
End Sort.

(** A comparator is a total order on a list of names when, among these
    names, it compares any two, is transitive, and gives [0] (or both signs)
    for no two different ones. *)
Definition TotalOrderOn {A : Type} (cmp : A → A → Z) (names : list A) : Prop :=
  (∀ a b, a ∈ names → b ∈ names → inOrder cmp a b ∨ inOrder cmp b a)
  ∧ (∀ a b c, a ∈ names → b ∈ names → c ∈ names →
       inOrder cmp a b → inOrder cmp b c → inOrder cmp a c)
  ∧ (∀ a b, a ∈ names → b ∈ names →
       inOrder cmp a b → inOrder cmp b a → a = b).

(** ** [Map] and [Set]

    A JavaScript [Map] iterates in insertion order and [set] on a present
    key keeps the key's place: an association list without repeated keys.
    A [Set] is the same without values. *)
Section JsMap.
Context {K V : Type} `{EqDecision K}.

Fixpoint jsmap_get (m : list (K * V)) (k : K) : option V :=
  match m with
  | [] => None
  | (k', v) :: m' => if decide (k = k') then Some v else jsmap_get m' k
  end.

Definition jsmap_has (m : list (K * V)) (k : K) : bool :=
  match jsmap_get m k with Some _ => true | None => false end.

Fixpoint jsmap_set (m : list (K * V)) (k : K) (v : V) : list (K * V) :=
  match m with
  | [] => [(k, v)]
  | (k', v') :: m' =>
      if decide (k = k') then (k, v) :: m' else (k', v') :: jsmap_set m' k v
  end.

(** [Array.from(m.keys())] *)
Definition jsmap_keys (m : list (K * V)) : list K := m.*1.

(** [set.add(k)] *)
Definition jsset_add (s : list K) (k : K) : list K :=
  if decide (k ∈ s) then s else s ++ [k].
End JsMap.

(** ** Statuses and the two variants *)

Inductive Status := Red | Green.

Global Instance Status_eq_dec : EqDecision Status.
Proof. solve_decision. Defined.

Inductive Variant := Full | Simplified.

(** The glyphs U+1F534 and U+1F7E2 as surrogate pairs, and U+26AA. *)
Definition glyph (s : Status) : jsstring :=
  match s with
  | Red => [0xD83D; 0xDD34]
  | Green => [0xD83D; 0xDFE2]
  end.
Definition whiteCircle : jsstring := [0x26AA].

(** ** The line pattern

    [/([\u{1F534}\u{1F7E2}])\s+([0-9_]+)/u] in [index.ts] and
    [/([\u{1F534}\u{1F7E2}])\s+(\d+)/u] in the simplified script.  With the
    [u] flag the class of the first group matches one code point, here a
    surrogate pair; every other atom matches one code unit of the Basic
    Multilingual Plane.  A match cannot begin inside a surrogate pair, since
    it begins with a high surrogate, so trying every code unit index is the
    same as trying every code point index. *)

(** [\s]: WhiteSpace and LineTerminator of ECMAScript. *)
Definition isWhiteSpace (c : N) : bool :=
  (c =? 0x09) || (c =? 0x0A) || (c =? 0x0B) || (c =? 0x0C) || (c =? 0x0D)
  || (c =? 0x20) || (c =? 0xA0) || (c =? 0x1680)
  || ((0x2000 <=? c) && (c <=? 0x200A))
  || (c =? 0x2028) || (c =? 0x2029) || (c =? 0x202F) || (c =? 0x205F)
  || (c =? 0x3000) || (c =? 0xFEFF).

(** [\d] is [[0-9]], with or without the [u] flag. *)
Definition isDigit (c : N) : bool := (0x30 <=? c) && (c <=? 0x39).

(** The class of the second group: [[0-9_]] or [\d]. *)
Definition isIdChar (v : Variant) (c : N) : bool :=
  match v with
  | Full => isDigit c || (c =? 0x5F)
  | Simplified => isDigit c
  end.

(** The greedy run of a one-character class: the longest prefix in the
    class, and what follows it. *)
Fixpoint takeWhile (p : N → bool) (l : jsstring) : jsstring :=
  match l with
  | c :: l' => if p c then c :: takeWhile p l' else []
  | [] => []
  end.
Fixpoint dropWhile (p : N → bool) (l : jsstring) : jsstring :=
  match l with
  | c :: l' => if p c then dropWhile p l' else l
  | [] => []
  end.

(** The first group at the head of [l]. *)
Definition glyphAt (l : jsstring) : option (Status * jsstring) :=
  match l with
  | hi :: lo :: rest =>
      if hi =? 0xD83D then
        if lo =? 0xDD34 then Some (Red, rest)
        else if lo =? 0xDFE2 then Some (Green, rest)
        else None
      else None
  | _ => None
  end.

(** One attempt of the pattern at the head of [l]: the captures
    [(status, traceId)].  The classes of [\s+] and of the second group are
    disjoint, so giving back white space never helps and the greedy runs
    decide the attempt. *)
Definition matchAt (v : Variant) (l : jsstring) : option (Status * jsstring) :=
  match glyphAt l with
  | Some (st, r) =>
      match takeWhile isWhiteSpace r with
      | [] => None
      | _ :: _ =>
          match takeWhile (isIdChar v) (dropWhile isWhiteSpace r) with
          | [] => None
          | id => Some (st, id)
          end
      end
  | None => None
  end.

(** [line.match(re)] without the [g] flag: the leftmost attempt that
    succeeds, [None] for [null]. *)
Fixpoint lineMatch (v : Variant) (line : jsstring) : option (Status * jsstring) :=
  match matchAt v line with
  | Some r => Some r
  | None =>
      match line with
      | [] => None
      | _ :: rest => lineMatch v rest
      end
  end.

(** ** The aggregation state

    The three module-level collections of the script. *)
Record State := {
  results : list (jsstring * list (jsstring * Status));
      (* TraceID -> (Team -> Status) *)
  traceBranchMap : list (jsstring * jsstring);
      (* TraceID -> BranchName; never written by the simplified script *)
  allTeams : list jsstring
}.

Definition initialState : State :=
  {| results := []; traceBranchMap := []; allTeams := [] |}.

(** What the script sees of a branch of the working copy.  [checkoutOk] is
    [false] when [git checkout -f] (or the directory listing) throws;
    [summariesDir] is [None] when the directory is absent, else the names
    [readdirSync] lists; a file whose [readFileSync] throws has no
    content; [traceDirExists] answers [existsSync] for a trace directory. *)
Record File := { fileName : jsstring; fileContent : option jsstring }.

Record Branch := {
  branchName : jsstring;
  checkoutOk : bool;
  summariesDir : option (list File);
  traceDirExists : jsstring → bool
}.

(** [results.get(trace)?.get(team)] *)
Definition statusOf (r : list (jsstring * list (jsstring * Status)))
    (trace team : jsstring) : option Status :=
  match jsmap_get r trace with
  | Some m => jsmap_get m team
  | None => None
  end.

(** Lines 91-95 of [index.ts] (77-81 of the simplified script): create the
    inner map on first sighting, then write the status into it in place. *)
Definition recordStatus (traceId teamName : jsstring) (status : Status)
    (r : list (jsstring * list (jsstring * Status)))
    : list (jsstring * list (jsstring * Status)) :=
  let r1 := if jsmap_has r traceId then r else jsmap_set r traceId [] in
  match jsmap_get r1 traceId with
  | Some inner => jsmap_set r1 traceId (jsmap_set inner teamName status)
  | None => r1
  end.

(** Lines 98-103 of [index.ts]: remember the first branch on which the
    trace directory exists. *)
Definition recordBranch (b : Branch) (traceId : jsstring)
    (m : list (jsstring * jsstring)) : list (jsstring * jsstring) :=
  if jsmap_has m traceId then m
  else if traceDirExists b traceId then jsmap_set m traceId (branchName b)
  else m.

(** The body of the loop over the lines of a summary file. *)
Definition processLine (v : Variant) (b : Branch) (teamName line : jsstring)
    (s : State) : State :=
  match lineMatch v line with
  | Some (status, traceId) =>
      {| results := recordStatus traceId teamName status (results s);
         traceBranchMap :=
           match v with
           | Full => recordBranch b traceId (traceBranchMap s)
           | Simplified => traceBranchMap s
           end;
         allTeams := allTeams s |}
  | None => s
  end.

(** [file.replace("summary_", "").replace(".txt", "")] *)
Definition teamNameOf (file : jsstring) : jsstring :=
  removeFirst (removeFirst file (js "summary_")) (js ".txt").

Definition addTeam (teamName : jsstring) (s : State) : State :=
  {| results := results s;
     traceBranchMap := traceBranchMap s;
     allTeams := jsset_add (allTeams s) teamName |}.

(** The body of the loop over the summary files.  The flag is [false] when
    [readFileSync] throws: the team has been added by then, and the
    exception ends the branch. *)
Definition processFile (v : Variant) (b : Branch) (f : File) (s : State)
    : State * bool :=
  let teamName := teamNameOf (fileName f) in
  let s1 := addTeam teamName s in
  match fileContent f with
  | None => (s1, false)
  | Some content =>
      (fold_left (λ st line, processLine v b teamName line st)
         (splitLines content) s1, true)
  end.

Fixpoint processFiles (v : Variant) (b : Branch) (files : list File)
    (s : State) : State :=
  match files with
  | [] => s
  | f :: fs =>
      match processFile v b f s with
      | (s1, true) => processFiles v b fs s1
      | (s1, false) => s1
      end
  end.

Definition isSummaryFile (f : File) : bool :=
  startsWith (fileName f) (js "summary_") && endsWith (fileName f) (js ".txt").

(** The body of the loop over the branches, inside its [try]; the [catch]
    only logs, so a branch that throws keeps what it had recorded.  The
    guard [files.length > 0] only matters for the merged report. *)
Definition processBranch (v : Variant) (b : Branch) (s : State) : State :=
  if checkoutOk b then
    match summariesDir b with
    | Some entries => processFiles v b (List.filter isSummaryFile entries) s
    | None => s
    end
  else s.

(** The aggregation: the branches in listing order. *)
Definition run (v : Variant) (branches : list Branch) : State :=
  fold_left (λ s b, processBranch v b s) branches initialState.

(** *** The extracted facts

    The (team, trace-id, status) triples in the order in which the loops
    above record them. *)
Definition Fact : Type := jsstring * jsstring * Status.

Definition lineFact (v : Variant) (teamName line : jsstring) : option Fact :=
  match lineMatch v line with
  | Some (status, traceId) => Some (teamName, traceId, status)
  | None => None
  end.

Definition fileFacts (v : Variant) (f : File) : list Fact :=
  match fileContent f with
  | Some content =>
      omap (lineFact v (teamNameOf (fileName f))) (splitLines content)
  | None => []
  end.

Fixpoint filesFacts (v : Variant) (files : list File) : list Fact :=
  match files with
  | [] => []
  | f :: fs =>
      match fileContent f with
      | Some _ => fileFacts v f ++ filesFacts v fs
      | None => []
      end
  end.

Definition extracted (v : Variant) (b : Branch) : list Fact :=
  if checkoutOk b then
    match summariesDir b with
    | Some entries => filesFacts v (List.filter isSummaryFile entries)
    | None => []
    end
  else [].

Definition allExtracted (v : Variant) (branches : list Branch) : list Fact :=
  concat (map (extracted v) branches).

Definition recordFact (r : list (jsstring * list (jsstring * Status)))
    (f : Fact) : list (jsstring * list (jsstring * Status)) :=
  recordStatus f.1.2 f.1.1 f.2 r.

(** The status of the last fact about a (trace, team) pair. *)
Definition lastStatus (facts : list Fact) (trace team : jsstring)
    : option Status :=
  fold_left
    (λ acc f, if decide (f.1.2 = trace ∧ f.1.1 = team) then Some f.2 else acc)
    facts None.

(** The states the loops pass through: a team is added, or a line of a file
    of an added team is processed. *)
Inductive reachable (v : Variant) : State → Prop :=
  | reachable_init : reachable v initialState
  | reachable_team s teamName :
      reachable v s → reachable v (addTeam teamName s)
  | reachable_line s b teamName line :
      reachable v s → teamName ∈ allTeams s →
      reachable v (processLine v b teamName line s).

(** ** Rendering the table *)

Definition REPO_URL : jsstring := js "https://github.com/w3f/jam-conformance".
Definition TRACES_REL_PATH : jsstring := js "fuzz-reports/0.7.2/traces".
Definition nl : jsstring := [10].
Definition typeberry : jsstring := js "typeberry".

Record Stats := { red : nat; green : nat; unknown : nat }.

(** The body of the counting loop over all traces, for one team. *)
Definition countStatus (r : list (jsstring * list (jsstring * Status)))
    (team : jsstring) (acc : Stats) (trace : jsstring) : Stats :=
  match statusOf r trace team with
  | Some Red => {| red := S (red acc); green := green acc; unknown := unknown acc |}
  | Some Green => {| red := red acc; green := S (green acc); unknown := unknown acc |}
  | None => {| red := red acc; green := green acc; unknown := S (unknown acc) |}
  end.

(** The loop over the teams inside the failure test, with its [break]. *)
Fixpoint anyRed (teamStatusMap : list (jsstring * Status))
    (teams : list jsstring) : bool :=
  match teams with
  | [] => false
  | team :: rest =>
      if decide (jsmap_get teamStatusMap team = Some Red) then true
      else anyRed teamStatusMap rest
  end.

Definition hasFailure (r : list (jsstring * list (jsstring * Status)))
    (teams : list jsstring) (trace : jsstring) : bool :=
  match jsmap_get r trace with
  | Some teamStatusMap => anyRed teamStatusMap teams
  | None => false
  end.

(** The loop that pushes every trace onto one of the two arrays. *)
Definition partitionTraces (r : list (jsstring * list (jsstring * Status)))
    (teams traces : list jsstring) : list jsstring * list jsstring :=
  fold_left
    (λ acc trace,
       if hasFailure r teams trace then (acc.1 ++ [trace], acc.2)
       else (acc.1, acc.2 ++ [trace]))
    traces ([], []).

(** [results.get(trace)?.get(team) || "⚪"] *)
Definition statusCell (r : list (jsstring * list (jsstring * Status)))
    (trace team : jsstring) : jsstring :=
  match statusOf r trace team with
  | Some st => glyph st
  | None => whiteCircle
  end.

(** [linkify] of [index.ts]; an empty branch name is falsy. *)
Definition linkify (m : list (jsstring * jsstring)) (traceId : jsstring)
    : jsstring :=
  match jsmap_get m traceId with
  | Some (c :: branch') =>
      js "[" ++ traceId ++ js "](" ++ REPO_URL ++ js "/tree/" ++ (c :: branch')
      ++ js "/" ++ TRACES_REL_PATH ++ js "/" ++ traceId ++ js ")"
  | _ => traceId
  end.

Section Render.
(** [String.prototype.localeCompare] belongs to the runtime, not to the
    script: the table is rendered relative to it. *)
Context (localeCompare : jsstring → jsstring → Z).

(** The comparator of line 133 of [index.ts]. *)
Definition teamCompare (a b : jsstring) : Z :=
  if decide (a = typeberry) then (-1)%Z
  else if decide (b = typeberry) then 1%Z
  else localeCompare a b.

Definition allTraces (s : State) : list jsstring :=
  sortBy defaultCompare (jsmap_keys (results s)).

Definition sortedTeams (v : Variant) (s : State) : list jsstring :=
  match v with
  | Full => sortBy teamCompare (allTeams s)
  | Simplified => sortBy defaultCompare (allTeams s)
  end.

Definition interestingTraces (v : Variant) (s : State) : list jsstring :=
  (partitionTraces (results s) (sortedTeams v s) (allTraces s)).1.

Definition boringTraces (v : Variant) (s : State) : list jsstring :=
  (partitionTraces (results s) (sortedTeams v s) (allTraces s)).2.

(** The counters of one team after the loop over all traces. *)
Definition teamCounts (s : State) (team : jsstring) : Stats :=
  fold_left (countStatus (results s) team) (allTraces s)
    {| red := 0; green := 0; unknown := 0 |}.

(** [teamStats] of [index.ts]. *)
Definition teamStats (s : State) : list (jsstring * Stats) :=
  fold_left (λ m team, jsmap_set m team (teamCounts s team))
    (sortedTeams Full s) [].

(** [teamStats.get(team)!]; the assertion holds for every team of the
    loop (lemma [teamStats_get]), the default is never used. *)
Definition statsOf (s : State) (team : jsstring) : Stats :=
  default {| red := 0; green := 0; unknown := 0 |}
    (jsmap_get (teamStats s) team).

(** The three summary rows, built by one loop over the teams. *)
Definition summaryRows (s : State) : jsstring * jsstring * jsstring :=
  fold_left
    (λ rows team,
       let stats := statsOf s team in
       (rows.1.1 ++ js " " ++ numToString (red stats) ++ js " |",
        rows.1.2 ++ js " " ++ numToString (green stats) ++ js " |",
        rows.2 ++ js " " ++ numToString (unknown stats) ++ js " |"))
    (sortedTeams Full s)
    (js "| " ++ glyph Red ++ js " |",
     js "| " ++ glyph Green ++ js " |",
     js "| " ++ whiteCircle ++ js " |").

(** One data row of [index.ts]: a trace and its status per team. *)
Definition traceRow (s : State) (trace : jsstring) : jsstring :=
  fold_left
    (λ row team, row ++ js " " ++ statusCell (results s) trace team ++ js " |")
    (sortedTeams Full s)
    (js "| " ++ linkify (traceBranchMap s) trace ++ js " |").

(** [mdTable] of [index.ts], lines 176-219. *)
Definition mdTableFull (s : State) : jsstring :=
  let teams := sortedTeams Full s in
  let header :=
    js "| Trace | " ++ join (js " | ") teams ++ js " |" ++ nl
    ++ js "|---|" ++ join (js "|") (map (λ _, js "---") teams) ++ js "|" ++ nl in
  let rows := summaryRows s in
  fold_left (λ t trace, t ++ traceRow s trace ++ nl)
    (interestingTraces Full s)
    (header ++ rows.1.1 ++ nl ++ rows.1.2 ++ nl ++ rows.2 ++ nl).

(** One row of the simplified script: a team, its counters, and its
    status for every interesting trace. *)
Definition teamRow (s : State) (team : jsstring) : jsstring :=
  let c := teamCounts s team in
  fold_left
    (λ row trace, row ++ js " " ++ statusCell (results s) trace team ++ js " |")
    (interestingTraces Simplified s)
    (js "| " ++ team ++ js " |"
     ++ js " " ++ numToString (red c) ++ js " | " ++ numToString (green c)
     ++ js " | " ++ numToString (unknown c) ++ js " |").

(** [mdTable] of the simplified script, lines 126-157. *)
Definition mdTableSimplified (s : State) : jsstring :=
  let interesting := interestingTraces Simplified s in
  fold_left (λ t team, t ++ teamRow s team ++ nl)
    (sortedTeams Simplified s)
    (js "| Team | " ++ glyph Red ++ js " | " ++ glyph Green ++ js " | "
     ++ whiteCircle ++ js " | " ++ join (js " | ") interesting ++ js " |" ++ nl
     ++ js "|---|---|---|---|"
     ++ join (js "|") (map (λ _, js "---") interesting) ++ js "|" ++ nl).

Definition mdTable (v : Variant) (s : State) : jsstring :=
  match v with
  | Full => mdTableFull s
  | Simplified => mdTableSimplified s
  end.
End Render.

(** ** The template updater *)

Definition startMarker : jsstring := js "<!-- CONFORMANCE_TABLE_START -->".
Definition endMarker : jsstring := js "<!-- CONFORMANCE_TABLE_END -->".

Inductive ConsoleEntry :=
  | ConsoleLog (message : jsstring)
  | ConsoleError (message : jsstring).

(** [newContent], lines 234-240 of [index.ts]. *)
Definition newContent (readmeContent mdTable : jsstring) : jsstring :=
  let startIndex := indexOf readmeContent startMarker in
  let endIndex := indexOf readmeContent endMarker in
  let before :=
    substring2 readmeContent 0 (startIndex + Z.of_nat (length startMarker)) in
  let after := substring1 readmeContent endIndex in
  before ++ nl ++ nl ++ mdTable ++ nl ++ after.

(** What the updater does to the README: the content it writes, if it
    writes, and its console lines. *)
Record Update := { written : option jsstring; console : list ConsoleEntry }.

(** Lines 224-248 of [index.ts].  [readme] is [None] when the file does not
    exist, else its content as a string. *)
Definition updateReadme (README_FILE : jsstring) (readme : option jsstring)
    (mdTable : jsstring) : Update :=
  match readme with
  | Some readmeContent =>
      let startIndex := indexOf readmeContent startMarker in
      let endIndex := indexOf readmeContent endMarker in
      if negb (startIndex =? -1)%Z && negb (endIndex =? -1)%Z then
        {| written := Some (newContent readmeContent mdTable);
           console :=
             [ConsoleLog (js "Updating " ++ README_FILE ++ js "...");
              ConsoleLog (js "README.md updated.")] |}
      else
        {| written := None;
           console :=
             [ConsoleError (js "Markers not found in " ++ README_FILE
                            ++ js ". Table not updated.")] |}
  | None =>
      {| written := None;
         console := [ConsoleError (README_FILE ++ js " not found.")] |}
  end.

(** The README after the updater has run. *)
Definition readmeAfter (readme : option jsstring) (u : Update)
    : option jsstring :=
  match written u with
  | Some c => Some c
  | None => readme
  end.

(** The table part of [main]: aggregate, render, update. *)
Definition main (localeCompare : jsstring → jsstring → Z) (v : Variant)
    (README_FILE : jsstring) (branches : list Branch)
    (readme : option jsstring) : Update :=
  updateReadme README_FILE readme (mdTable localeCompare v (run v branches)).

(** ** The updater and the file system

    [existsSync] answers without throwing; [readFileSync] (line 225) and
    [writeFileSync] (line 241) throw when the file cannot be read or
    written, and neither call is inside a [try]: the exception leaves
    [main], and the handler of line 253, [main().catch(console.error)],
    prints it.  [updateReadme] above is the updater over a README that can
    be read and written; [updateReadmeIO] is the updater over any README. *)
Inductive ReadmeFile :=
  | ReadmeMissing
  | ReadmeUnreadable
  | ReadmeReadable (readmeContent : jsstring).

Inductive FsError := ReadFailed | WriteFailed.

(** What the updater does: the content it passes to [writeFileSync], if it
    calls it; the console lines of lines 224-248; and the exception that
    leaves [main], if one is thrown. *)
Record UpdateIO := {
  writeCall : option jsstring;
  updaterConsole : list ConsoleEntry;
  uncaught : option FsError
}.

(** Lines 224-248 of [index.ts]; [writeOk] tells whether [writeFileSync]
    returns. *)
Definition updateReadmeIO (README_FILE : jsstring) (file : ReadmeFile)
    (writeOk : bool) (mdTable : jsstring) : UpdateIO :=
  match file with
  | ReadmeMissing =>
      {| writeCall := None;
         updaterConsole := [ConsoleError (README_FILE ++ js " not found.")];
         uncaught := None |}
  | ReadmeUnreadable =>
      {| writeCall := None; updaterConsole := []; uncaught := Some ReadFailed |}
  | ReadmeReadable readmeContent =>
      let startIndex := indexOf readmeContent startMarker in
      let endIndex := indexOf readmeContent endMarker in
      if negb (startIndex =? -1)%Z && negb (endIndex =? -1)%Z then
        if writeOk then
          {| writeCall := Some (newContent readmeContent mdTable);
             updaterConsole :=
               [ConsoleLog (js "Updating " ++ README_FILE ++ js "...");
                ConsoleLog (js "README.md updated.")];
             uncaught := None |}
        else
          {| writeCall := Some (newContent readmeContent mdTable);
             updaterConsole :=
               [ConsoleLog (js "Updating " ++ README_FILE ++ js "...")];
             uncaught := Some WriteFailed |}
      else
        {| writeCall := None;
           updaterConsole :=
             [ConsoleError (js "Markers not found in " ++ README_FILE
                            ++ js ". Table not updated.")];
           uncaught := None |}
  end.

(** The README as [updateReadme] is given it. *)
Definition readableContent (file : ReadmeFile) : option jsstring :=
  match file with
  | ReadmeReadable readmeContent => Some readmeContent
  | ReadmeMissing | ReadmeUnreadable => None
  end.

(** ** The line pattern, as the specification words it

    "One of two status glyphs, one or more whitespace characters, then one
    or more digits (optionally including underscores, per variant)",
    somewhere in the line. *)
Definition PatternAt (v : Variant) (line : jsstring) (st : Status)
    (id : jsstring) : Prop :=
  ∃ pre ws post,
    line = pre ++ glyph st ++ ws ++ id ++ post
    ∧ ws ≠ [] ∧ Forall (λ c, isWhiteSpace c = true) ws
    ∧ id ≠ [] ∧ Forall (λ c, isIdChar v c = true) id.


(** The occurrence a match without the [g] flag reports: the one that
    starts first in the line, with its identifier running as far as the
    class of the second group allows. *)
Definition FirstPatternAt (v : Variant) (line : jsstring) (st : Status)
    (id : jsstring) : Prop :=
  ∃ pre ws post,
    line = pre ++ glyph st ++ ws ++ id ++ post
    ∧ ws ≠ [] ∧ Forall (λ c, isWhiteSpace c = true) ws
    ∧ id ≠ [] ∧ Forall (λ c, isIdChar v c = true) id
    ∧ (∀ c post', post = c :: post' → isIdChar v c = false)
    ∧ ∀ pre' st' ws' id' post',
        line = pre' ++ glyph st' ++ ws' ++ id' ++ post' →
        ws' ≠ [] → Forall (λ c, isWhiteSpace c = true) ws' →
        id' ≠ [] → Forall (λ c, isIdChar v c = true) id' →
        (length pre ≤ length pre')%nat.

(** ** Marker occurrences, as the specification words them

    A marker "is found" in a document when it occurs in it. *)
Definition occursIn (p s : jsstring) : Prop := ∃ pre post, s = pre ++ p ++ post.

(** ** The team totals, as the specification words them

    The number of traces among [traces] whose recorded status for [team]
    is [o]; [None] stands for "no recorded status". *)
Definition countTraces (r : list (jsstring * list (jsstring * Status)))
    (traces : list jsstring) (team : jsstring) (o : option Status) : nat :=
  length (List.filter (λ trace, bool_decide (statusOf r trace team = o)) traces).

(** ** A small working copy

    The end-to-end example of the specification: branch [b1] holds
    [summary_alice.txt] with a passing trace 100 and a failing trace 200,
    branch [b2] holds [summary_bob.txt] with a failing trace 100. *)
Definition exAlice : File :=
  {| fileName := js "summary_alice.txt";
     fileContent := Some (glyph Green ++ js " 100" ++ nl ++ glyph Red ++ js " 200") |}.
Definition exBob : File :=
  {| fileName := js "summary_bob.txt";
     fileContent := Some (glyph Red ++ js " 100") |}.
Definition exB1 : Branch :=
  {| branchName := js "b1"; checkoutOk := true;
     summariesDir := Some [exAlice]; traceDirExists := λ _, false |}.
Definition exB2 : Branch :=
  {| branchName := js "b2"; checkoutOk := true;
     summariesDir := Some [exBob]; traceDirExists := λ _, false |}.

(** The same branch as [exB1] in a working copy that has the trace
    directories. *)
Definition exB1dirs : Branch :=
  {| branchName := js "b1"; checkoutOk := true;
     summariesDir := Some [exAlice]; traceDirExists := λ _, true |}.

(** A later branch on which alice fails trace 100. *)
Definition exAliceLater : File :=
  {| fileName := js "summary_alice.txt";
     fileContent := Some (glyph Red ++ js " 100") |}.
Definition exB3 : Branch :=
  {| branchName := js "b3"; checkoutOk := true;
     summariesDir := Some [exAliceLater]; traceDirExists := λ _, false |}.

(** A branch with the priority team and another team. *)
Definition exTypeberry : File :=
  {| fileName := js "summary_typeberry.txt";
     fileContent := Some (glyph Green ++ js " 100") |}.
Definition exB4 : Branch :=
  {| branchName := js "b4"; checkoutOk := true;
     summariesDir := Some [exTypeberry; exAlice]; traceDirExists := λ _, false |}.

(** Two spellings of one team name: [é] as the single code unit U+00E9,
    and as [e] followed by the combining acute accent U+0301.  The strings
    differ, and are canonically equivalent. *)
Definition eComposed : jsstring := [0xE9].
Definition eDecomposed : jsstring := [0x65; 0x301].

(** A [localeCompare] that, as ECMAScript requires of it, gives [0] for
    canonically equivalent strings: it reads [e] + U+0301 as U+00E9 and
    then compares code units. *)
Fixpoint composeAcute (s : jsstring) : jsstring :=
  match s with
  | c :: s' =>
      match s' with
      | d :: s'' =>
          if (c =? 0x65) && (d =? 0x301) then 0xE9 :: composeAcute s''
          else c :: composeAcute s'
      | [] => [c]
      end
  | [] => []
  end.

Definition canonCompare (a b : jsstring) : Z :=
  defaultCompare (composeAcute a) (composeAcute b).

(** Two branches, each with the summary of one of the two spellings. *)
Definition exEComposed : File :=
  {| fileName := js "summary_" ++ eComposed ++ js ".txt";
     fileContent := Some (glyph Red ++ js " 100") |}.
Definition exEDecomposed : File :=
  {| fileName := js "summary_" ++ eDecomposed ++ js ".txt";
     fileContent := Some (glyph Green ++ js " 100") |}.
Definition exB6 : Branch :=
  {| branchName := js "b6"; checkoutOk := true;
     summariesDir := Some [exEComposed]; traceDirExists := λ _, false |}.
Definition exB7 : Branch :=
  {| branchName := js "b7"; checkoutOk := true;
     summariesDir := Some [exEDecomposed]; traceDirExists := λ _, false |}.

(** A README whose end marker comes before its start marker. *)
Definition exReversedReadme : jsstring :=
  endMarker ++ nl ++ js "old table" ++ nl ++ startMarker ++ nl
  ++ js "## Usage" ++ nl.

(** A README without markers. *)
Definition exPlainReadme : jsstring := js "# Dashboard" ++ nl.

(** ** The list of branches

    Lines 37-41 of [index.ts]: the output of [git branch -r] is split into
    lines, each line is trimmed, the empty lines, the symbolic references
    and the branches of other remotes are dropped, and the remote's prefix
    is removed. *)

(** [s.trim()]: the white space of [\s] is what [trim] removes. *)
Definition trim (s : jsstring) : jsstring :=
  reverse (dropWhile isWhiteSpace (reverse (dropWhile isWhiteSpace s))).

(** [s.includes(p)] *)
Definition includes (s p : jsstring) : bool := negb (indexOf s p =? -1)%Z.

(** The truthiness of a string. *)
Definition nonEmpty (s : jsstring) : bool :=
  match s with [] => false | _ :: _ => true end.

Definition parseBranches (branchesOutput : jsstring) : list jsstring :=
  map (λ b, removeFirst b (js "origin/"))
    (List.filter
       (λ b, nonEmpty b && negb (includes b (js "->"))
             && startsWith b (js "origin/"))
       (map trim (splitLines branchesOutput))).

(** ** The merged report

    The second artefact of the script, written to [merged_summary.md].  It
    is built along the same loops as the result table and does not read
    it. *)

(** U+1F4C2, the folder of the trace links. *)
Definition folderGlyph : jsstring := [0xD83D; 0xDCC2].

Record Report := { toc : list jsstring; bodyContent : jsstring }.

(** [validLines.push(`${status} ${traceId}`)] for a line that matches. *)
Definition pushValidLine (v : Variant) (validLines : list jsstring)
    (line : jsstring) : list jsstring :=
  match lineMatch v line with
  | Some (status, traceId) => validLines ++ [glyph status ++ js " " ++ traceId]
  | None => validLines
  end.

(** Lines 107-111 of [index.ts]. *)
Definition renderValidLines (validLines : list jsstring) : jsstring :=
  match validLines with
  | [] => js "_No results found in this summary file._" ++ nl
  | _ :: _ => join nl (map (λ l, js "- " ++ l) validLines) ++ nl
  end.

(** The banner line of the simplified report: 80 equal signs. *)
Definition banner : jsstring := replicate 80 0x3D.

Section Report.
(** [String.prototype.toLowerCase] belongs to the runtime. *)
Context (toLowerCase : jsstring → jsstring).

(** [s.toLowerCase().replace(/[^a-z0-9]/g, "-")]; without the [u] flag the
    class is tested on every code unit. *)
Definition anchor (s : jsstring) : jsstring :=
  map (λ c, if ((0x61 <=? c) && (c <=? 0x7A)) || isDigit c then c else 0x2D)
    (toLowerCase s).

(** What the body of the loop over the files adds to the report of
    [index.ts]; the flag is [false] when [readFileSync] throws, after the
    heading and the link have been added. *)
Definition reportFile (b : Branch) (f : File) (r : Report) : Report * bool :=
  let teamName := teamNameOf (fileName f) in
  let toc1 :=
    toc r ++ [js "  - [" ++ teamName ++ js "](#" ++ anchor teamName ++ js ")"] in
  let body1 :=
    bodyContent r ++ (nl ++ js "### " ++ teamName ++ nl ++ nl)
    ++ (js "[" ++ folderGlyph ++ js " View Traces for this Branch]("
        ++ REPO_URL ++ js "/tree/" ++ branchName b ++ js "/" ++ TRACES_REL_PATH
        ++ js ")" ++ nl ++ nl) in
  match fileContent f with
  | None => ({| toc := toc1; bodyContent := body1 |}, false)
  | Some content =>
      let validLines := fold_left (pushValidLine Full) (splitLines content) [] in
      ({| toc := toc1; bodyContent := body1 ++ renderValidLines validLines |},
       true)
  end.

Fixpoint reportFiles (b : Branch) (files : list File) (r : Report) : Report :=
  match files with
  | [] => r
  | f :: fs =>
      match reportFile b f r with
      | (r1, true) => reportFiles b fs r1
      | (r1, false) => r1
      end
  end.

(** What the body of the loop over the branches adds to the report of
    [index.ts]: nothing unless the branch has a summary file. *)
Definition reportBranch (b : Branch) (r : Report) : Report :=
  if checkoutOk b then
    match summariesDir b with
    | Some entries =>
        match List.filter isSummaryFile entries with
        | [] => r
        | files =>
            reportFiles b files
              {| toc := toc r ++ [js "- [" ++ branchName b ++ js "](#branch-"
                                  ++ anchor (branchName b) ++ js ")"];
                 bodyContent := bodyContent r ++ nl ++ js "## Branch: "
                                ++ branchName b ++ nl |}
        end
    | None => r
    end
  else r.

Definition report (branches : list Branch) : Report :=
  fold_left (λ r b, reportBranch b r) branches {| toc := []; bodyContent := [] |}.

(** [mergedContent] of [index.ts], lines 121-124. *)
Definition mergedContentFull (branches : list Branch) : jsstring :=
  js "# Merged Summary" ++ nl ++ nl
  ++ js "Generated from `jam-conformance` repository." ++ nl ++ nl
  ++ js "## Table of Contents" ++ nl ++ nl
  ++ join nl (toc (report branches)) ++ nl
  ++ bodyContent (report branches).
End Report.

(** The report of the simplified script, lines 56-67: the raw content of
    every file that could be read, under a banner per branch. *)
Definition mergeFile (f : File) (mergedContent : jsstring) : jsstring * bool :=
  match fileContent f with
  | None => (mergedContent, false)
  | Some content =>
      (mergedContent ++ (nl ++ js "--- FILE: " ++ fileName f ++ js " ---" ++ nl)
       ++ content, true)
  end.

Fixpoint mergeFiles (files : list File) (mergedContent : jsstring) : jsstring :=
  match files with
  | [] => mergedContent
  | f :: fs =>
      match mergeFile f mergedContent with
      | (m, true) => mergeFiles fs m
      | (m, false) => m
      end
  end.

Definition mergeBranch (b : Branch) (mergedContent : jsstring) : jsstring :=
  if checkoutOk b then
    match summariesDir b with
    | Some entries =>
        match List.filter isSummaryFile entries with
        | [] => mergedContent
        | files =>
            mergeFiles files
              (mergedContent ++ (nl ++ nl ++ banner ++ nl)
               ++ (js "BRANCH: " ++ branchName b ++ nl) ++ (banner ++ nl))
        end
    | None => mergedContent
    end
  else mergedContent.

Definition mergedContentSimplified (branches : list Branch) : jsstring :=
  fold_left (λ m b, mergeBranch b m) branches [].

(** The files of a branch that the loop gets to: the summary files up to
    and including the first one that cannot be read. *)
Fixpoint reachedFiles (files : list File) : list File :=
  match files with
  | [] => []
  | f :: fs =>
      match fileContent f with
      | Some _ => f :: reachedFiles fs
      | None => [f]
      end
  end.

Definition summaryFiles (b : Branch) : list File :=
  if checkoutOk b then
    match summariesDir b with
    | Some entries => reachedFiles (List.filter isSummaryFile entries)
    | None => []
    end
  else [].

(** A trace is found on a branch when a line of the branch's summary files
    names it while its trace directory exists there. *)
Definition traceFoundOn (b : Branch) (trace : jsstring) : Prop :=
  traceDirExists b trace = true
  ∧ ∃ team st, (team, trace, st) ∈ extracted Full b.

(** A branch with a summary file that cannot be read, between two that
    can. *)
Definition exUnreadable : File :=
  {| fileName := js "summary_carol.txt"; fileContent := None |}.
Definition exB5 : Branch :=
  {| branchName := js "b5"; checkoutOk := true;
     summariesDir := Some [exAlice; exUnreadable; exBob];
     traceDirExists := λ _, true |}.

(** A README with its markers in order, around an old table. *)
Definition exReadme : jsstring :=
  js "# Dashboard" ++ nl ++ startMarker ++ nl ++ js "old table" ++ nl
  ++ endMarker ++ nl ++ js "## Usage" ++ nl.

(** * Properties *)

(** ** The line parser *)

Lemma takeWhile_dropWhile p l : takeWhile p l ++ dropWhile p l = l.
Proof.
  induction l as [|c l IH]; simpl; [done|].
  destruct (p c); simpl; [by rewrite IH | done].
Qed.

Lemma takeWhile_Forall p l : Forall (λ c, p c = true) (takeWhile p l).
Proof.
  induction l as [|c l IH]; simpl; [constructor|].
  destruct (p c) eqn:E; by constructor.
Qed.

Lemma takeWhile_app_all p l1 l2 :
  Forall (λ c, p c = true) l1 → takeWhile p (l1 ++ l2) = l1 ++ takeWhile p l2.
Proof.
  induction 1 as [|c l Hc _ IH]; simpl; [done|]. by rewrite Hc, IH.
Qed.

Lemma dropWhile_app_all p l1 l2 :
  Forall (λ c, p c = true) l1 → dropWhile p (l1 ++ l2) = dropWhile p l2.
Proof.
  induction 1 as [|c l Hc _ IH]; simpl; [done|]. by rewrite Hc.
Qed.

(** The two greedy classes are disjoint. *)
Lemma isIdChar_not_space v c : isIdChar v c = true → isWhiteSpace c = false.
Proof.
  intros H. apply not_true_is_false. intros Hs. revert H.
  unfold isWhiteSpace in Hs.
  repeat (apply orb_prop in Hs; destruct Hs as [Hs|Hs]);
    try (apply andb_prop in Hs; destruct Hs as [Hs1 Hs2];
         apply N.leb_le in Hs1; apply N.leb_le in Hs2);
    try apply N.eqb_eq in Hs; subst;
    destruct v; unfold isIdChar, isDigit;
    rewrite ?orb_true_iff, ?andb_true_iff, ?N.leb_le, ?N.eqb_eq; lia.
Qed.

Lemma glyphAt_Some l st r : glyphAt l = Some (st, r) → l = glyph st ++ r.
Proof.
  destruct l as [|hi [|lo rest]]; simpl; try done.
  destruct (N.eqb_spec hi 0xD83D) as [->|]; [|done].
  destruct (N.eqb_spec lo 0xDD34) as [->|]; [by intros [= <- <-]|].
  destruct (N.eqb_spec lo 0xDFE2) as [->|]; [by intros [= <- <-]|done].
Qed.

Lemma glyphAt_glyph st r : glyphAt (glyph st ++ r) = Some (st, r).
Proof. by destruct st. Qed.

Lemma dropWhile_head p l c l' : dropWhile p l = c :: l' → p c = false.
Proof.
  induction l as [|d l IH]; cbn [dropWhile]; [done|].
  destruct (p d) eqn:E; [done|]. by intros [= <- _].
Qed.

Lemma matchAt_longest v l st id :
  matchAt v l = Some (st, id) →
  ∃ ws post,
    l = glyph st ++ ws ++ id ++ post
    ∧ ws ≠ [] ∧ Forall (λ c, isWhiteSpace c = true) ws
    ∧ id ≠ [] ∧ Forall (λ c, isIdChar v c = true) id
    ∧ ∀ c post', post = c :: post' → isIdChar v c = false.
Proof.
  unfold matchAt. destruct (glyphAt l) as [[st' r]|] eqn:Hg; [|done].
  apply glyphAt_Some in Hg.
  pose proof (takeWhile_Forall isWhiteSpace r) as Hsp.
  pose proof (takeWhile_Forall (isIdChar v) (dropWhile isWhiteSpace r)) as Hch.
  assert (r = takeWhile isWhiteSpace r
              ++ takeWhile (isIdChar v) (dropWhile isWhiteSpace r)
              ++ dropWhile (isIdChar v) (dropWhile isWhiteSpace r)) as Hr
    by by rewrite !takeWhile_dropWhile.
  destruct (takeWhile isWhiteSpace r) as [|w ws]; [done|].
  destruct (takeWhile (isIdChar v) (dropWhile isWhiteSpace r)) as [|i ids];
    [done|].
  intros [= <- <-].
  exists (w :: ws), (dropWhile (isIdChar v) (dropWhile isWhiteSpace r)).
  split_and!; try done.
  - rewrite Hg. by f_equal.
  - intros c post' E. by eapply dropWhile_head.
Qed.

Lemma matchAt_sound v l st id :
  matchAt v l = Some (st, id) → PatternAt v l st id.
Proof.
  intros (ws & post & ? & ? & ? & ? & ? & _)%matchAt_longest.
  by exists [], ws, post.
Qed.

Lemma matchAt_complete v st ws id post :
  ws ≠ [] → Forall (λ c, isWhiteSpace c = true) ws →
  id ≠ [] → Forall (λ c, isIdChar v c = true) id →
  ∃ id', matchAt v (glyph st ++ ws ++ id ++ post) = Some (st, id').
Proof.
  intros Hws Hsp Hid Hch. unfold matchAt. rewrite glyphAt_glyph.
  rewrite takeWhile_app_all, dropWhile_app_all by done.
  destruct ws as [|w ws]; [done|]. cbn [app].
  destruct id as [|i ids]; [done|].
  apply Forall_cons in Hch as [Hi Hids]. cbn [app takeWhile dropWhile].
  rewrite (isIdChar_not_space v i Hi). cbn [takeWhile]. rewrite Hi. eauto.
Qed.

Lemma PatternAt_cons v c line st id :
  PatternAt v line st id → PatternAt v (c :: line) st id.
Proof.
  intros (pre & ws & post & -> & ?). exists (c :: pre), ws, post. by split.
Qed.

Lemma lineMatch_sound v line st id :
  lineMatch v line = Some (st, id) → PatternAt v line st id.
Proof.
  induction line as [|c line IH]; [done|]. cbn [lineMatch].
  destruct (matchAt v (c :: line)) as [[]|] eqn:E.
  - intros [= -> ->]. by apply matchAt_sound.
  - intros H. by apply PatternAt_cons, IH.
Qed.

Lemma lineMatch_head v line r :
  matchAt v line = Some r → lineMatch v line = Some r.
Proof. intros E. destruct line; cbn [lineMatch]; by rewrite E. Qed.


(** The pair [line.match] captures is the leftmost occurrence of the
    pattern, with the longest identifier at that place. *)
Lemma lineMatch_leftmost_longest v line st id :
  lineMatch v line = Some (st, id) →
  ∃ pre ws post,
    line = pre ++ glyph st ++ ws ++ id ++ post
    ∧ ws ≠ [] ∧ Forall (λ c, isWhiteSpace c = true) ws
    ∧ id ≠ [] ∧ Forall (λ c, isIdChar v c = true) id
    ∧ (∀ c post', post = c :: post' → isIdChar v c = false)
    ∧ ∀ pre' st' ws' id' post',
        line = pre' ++ glyph st' ++ ws' ++ id' ++ post' →
        ws' ≠ [] → Forall (λ c, isWhiteSpace c = true) ws' →
        id' ≠ [] → Forall (λ c, isIdChar v c = true) id' →
        (length pre ≤ length pre')%nat.
Proof.
  induction line as [|c line IH]; [done|]. cbn [lineMatch].
  destruct (matchAt v (c :: line)) as [[st0 id0]|] eqn:E.
  - intros [= -> ->].
    destruct (matchAt_longest _ _ _ _ E) as (ws & post & ? & ? & ? & ? & ? & ?).
    exists [], ws, post. split_and!; try done. intros; cbn; lia.
  - intros (pre & ws & post & -> & ? & ? & ? & ? & ? & Hleft)%IH.
    exists (c :: pre), ws, post. split_and!; try done.
    intros [|d pre'] st' ws' id' post' E' ????.
    + destruct (matchAt_complete v st' ws' id' post') as [id'' E'']; try done.
      rewrite app_nil_l in E'. rewrite <-E' in E''. congruence.
    + injection E' as -> E'. cbn [length]. apply le_n_S. by eapply Hleft.
Qed.

Lemma takeWhile_exact p l post :
  Forall (λ c, p c = true) l →
  (∀ c post', post = c :: post' → p c = false) →
  takeWhile p (l ++ post) = l.
Proof.
  intros Hl Hpost. rewrite takeWhile_app_all by done.
  destruct post as [|c post']; cbn [takeWhile].
  - by rewrite app_nil_r.
  - rewrite (Hpost c post' eq_refl). by rewrite app_nil_r.
Qed.

(** An attempt at the head of an occurrence whose identifier cannot be
    extended captures exactly that occurrence. *)
Lemma matchAt_exact v st ws id post :
  ws ≠ [] → Forall (λ c, isWhiteSpace c = true) ws →
  id ≠ [] → Forall (λ c, isIdChar v c = true) id →
  (∀ c post', post = c :: post' → isIdChar v c = false) →
  matchAt v (glyph st ++ ws ++ id ++ post) = Some (st, id).
Proof.
  intros Hws Hsp Hid Hch Hpost. unfold matchAt. rewrite glyphAt_glyph.
  rewrite takeWhile_app_all, dropWhile_app_all by done.
  destruct ws as [|w ws]; [done|]. cbn [app].
  destruct id as [|i ids]; [done|].
  pose proof Hch as Hch'. apply Forall_cons in Hch' as [Hi _].
  assert (dropWhile isWhiteSpace ((i :: ids) ++ post) = (i :: ids) ++ post)
    as ->.
  { cbn [app dropWhile]. by rewrite (isIdChar_not_space v i Hi). }
  by rewrite takeWhile_exact.
Qed.

Lemma lineMatch_first v line st id :
  FirstPatternAt v line st id → lineMatch v line = Some (st, id).
Proof.
  intros (pre & ws & post & -> & Hws & Hsp & Hid & Hch & Hpost & Hleft).
  induction pre as [|c pre IH].
  - rewrite app_nil_l. by apply lineMatch_head, matchAt_exact.
  - cbn [app lineMatch].
    destruct (matchAt v (c :: pre ++ glyph st ++ ws ++ id ++ post))
      as [[st0 id0]|] eqn:E.
    + destruct (matchAt_longest _ _ _ _ E)
        as (ws0 & post0 & E0 & Hw0 & Hs0 & Hi0 & Hc0 & _).
      pose proof (Hleft [] st0 ws0 id0 post0 E0 Hw0 Hs0 Hi0 Hc0) as Hle.
      cbn [length] in Hle. lia.
    + apply IH. intros pre' st' ws' id' post' E' ????.
      apply le_S_n. apply (Hleft (c :: pre') st' ws' id' post'); try done.
      cbn [app]. by rewrite E'.
Qed.

(** ** Maps and sets *)

Section JsMapFacts.
Context {K V : Type} `{EqDecision K}.
Implicit Types (m : list (K * V)) (k : K) (v : V).

Lemma jsmap_get_set_eq m k v : jsmap_get (jsmap_set m k v) k = Some v.
Proof.
  induction m as [|[k' v'] m IH]; simpl.
  - by rewrite decide_True.
  - destruct (decide (k = k')) as [->|Hne]; simpl.
    + by rewrite decide_True.
    + by rewrite decide_False.
Qed.

Lemma jsmap_get_set_ne m k k' v :
  k ≠ k' → jsmap_get (jsmap_set m k v) k' = jsmap_get m k'.
Proof.
  intros Hne. induction m as [|[k0 v0] m IH]; simpl.
  - by rewrite decide_False.
  - destruct (decide (k = k0)) as [->|]; simpl.
    + by rewrite !decide_False.
    + destruct (decide (k' = k0)); [done|apply IH].
Qed.

Lemma jsmap_get_Some_keys m k v : jsmap_get m k = Some v → k ∈ jsmap_keys m.
Proof.
  induction m as [|[k' v'] m IH]; simpl; [done|].
  destruct (decide (k = k')) as [->|]; intros; [left|right; auto].
Qed.

Lemma jsmap_get_None_keys m k : jsmap_get m k = None ↔ k ∉ jsmap_keys m.
Proof.
  induction m as [|[k' v'] m IH]; simpl.
  - split; [intros _; apply not_elem_of_nil|done].
  - rewrite not_elem_of_cons. destruct (decide (k = k')) as [->|Hne].
    + split; [done|]. by intros [? _].
    + rewrite IH. split; [by split|by intros [_ ?]].
Qed.

Lemma jsmap_keys_get m k : k ∈ jsmap_keys m → is_Some (jsmap_get m k).
Proof.
  intros Hk. destruct (jsmap_get m k) eqn:E; [eauto|].
  by apply jsmap_get_None_keys in E.
Qed.

Lemma jsmap_has_keys m k : jsmap_has m k = true ↔ k ∈ jsmap_keys m.
Proof.
  unfold jsmap_has. split.
  - destruct (jsmap_get m k) eqn:E; [|done].
    intros _. by eapply jsmap_get_Some_keys.
  - intros [? ->]%jsmap_keys_get. done.
Qed.

Lemma jsmap_keys_set m k v :
  jsmap_keys (jsmap_set m k v) = jsset_add (jsmap_keys m) k.
Proof.
  unfold jsset_add, jsmap_keys. induction m as [|[k' v'] m IH].
  - cbn [jsmap_set fmap list_fmap fst]. rewrite decide_False; [done|].
    apply not_elem_of_nil.
  - cbn [jsmap_set]. destruct (decide (k = k')) as [->|Hne];
      rewrite !fmap_cons; cbn [fst].
    + rewrite decide_True; [done|left].
    + rewrite IH. destruct (decide (k ∈ m.*1)) as [Hin|Hout].
      * rewrite decide_True; [done|by right].
      * rewrite decide_False; [done|]. by rewrite not_elem_of_cons.
Qed.

Lemma jsmap_set_set m k v v' :
  jsmap_set (jsmap_set m k v) k v' = jsmap_set m k v'.
Proof.
  induction m as [|[k0 v0] m IH]; cbn [jsmap_set].
  - by rewrite decide_True.
  - destruct (decide (k = k0)) as [->|Hne]; cbn [jsmap_set].
    + by rewrite decide_True.
    + by rewrite decide_False, IH.
Qed.

Lemma jsset_add_elem (s : list K) k x : x ∈ jsset_add s k ↔ x = k ∨ x ∈ s.
Proof.
  unfold jsset_add. destruct (decide (k ∈ s)).
  - split; [by right|]. by intros [->|?].
  - rewrite elem_of_app, list_elem_of_singleton. tauto.
Qed.

Lemma jsset_add_NoDup (s : list K) k : NoDup s → NoDup (jsset_add s k).
Proof.
  unfold jsset_add. destruct (decide (k ∈ s)); [done|].
  intros Hs. apply NoDup_app. split_and!; [done| |apply NoDup_singleton].
  intros x Hx ->%list_elem_of_singleton. done.
Qed.
End JsMapFacts.

(** ** The aggregator *)

Section Aggregator.
Implicit Types (r : list (jsstring * list (jsstring * Status))).
Implicit Types (s : State) (trace team : jsstring).

Lemma statusOf_Some_keys r trace team st :
  statusOf r trace team = Some st → trace ∈ jsmap_keys r.
Proof.
  unfold statusOf. destruct (jsmap_get r trace) eqn:E; [|done].
  intros _. by eapply jsmap_get_Some_keys.
Qed.

(** The two statements of a write, as one update of the outer map. *)
Lemma recordStatus_eq r traceId teamName status :
  recordStatus traceId teamName status r
  = jsmap_set r traceId
      (jsmap_set (default [] (jsmap_get r traceId)) teamName status).
Proof.
  unfold recordStatus, jsmap_has.
  destruct (jsmap_get r traceId) as [inner|] eqn:E.
  - by rewrite E.
  - by rewrite jsmap_get_set_eq, jsmap_set_set.
Qed.

(** What a write does to every cell of the table. *)
Lemma statusOf_recordStatus r traceId teamName status trace team :
  statusOf (recordStatus traceId teamName status r) trace team =
  if decide (trace = traceId ∧ team = teamName) then Some status
  else statusOf r trace team.
Proof.
  rewrite recordStatus_eq. unfold statusOf.
  destruct (decide (trace = traceId)) as [->|Hne].
  - rewrite jsmap_get_set_eq.
    destruct (decide (team = teamName)) as [->|Hne].
    + by rewrite jsmap_get_set_eq, decide_True.
    + rewrite jsmap_get_set_ne by done. rewrite decide_False by tauto.
      by destruct (jsmap_get r traceId).
  - rewrite jsmap_get_set_ne by done. rewrite decide_False; [done|tauto].
Qed.

Lemma recordStatus_keys r traceId teamName status :
  jsmap_keys (recordStatus traceId teamName status r)
  = jsset_add (jsmap_keys r) traceId.
Proof. rewrite recordStatus_eq. apply jsmap_keys_set. Qed.

(** A write never leaves an empty inner map behind. *)
Lemma recordStatus_inner r traceId teamName status trace inner :
  (∀ tr i, jsmap_get r tr = Some i → i ≠ []) →
  jsmap_get (recordStatus traceId teamName status r) trace = Some inner →
  inner ≠ [].
Proof.
  intros Hr. rewrite recordStatus_eq.
  destruct (decide (trace = traceId)) as [->|Hne].
  - rewrite jsmap_get_set_eq. intros [= <-].
    by destruct (default [] _) as [|[]]; cbn [jsmap_set]; [|case_decide].
  - rewrite jsmap_get_set_ne by done. apply Hr.
Qed.

Lemma processLine_results v b teamName line s :
  results (processLine v b teamName line s) =
  match lineFact v teamName line with
  | Some f => recordFact (results s) f
  | None => results s
  end.
Proof.
  unfold processLine, lineFact.
  by destruct (lineMatch v line) as [[]|].
Qed.


Lemma processLine_allTeams v b teamName line s :
  allTeams (processLine v b teamName line s) = allTeams s.
Proof. unfold processLine. by destruct (lineMatch v line) as [[]|]. Qed.

Lemma processLines_results v b teamName lines s :
  results (fold_left (λ st line, processLine v b teamName line st) lines s)
  = fold_left recordFact (omap (lineFact v teamName) lines) (results s).
Proof.
  revert s. induction lines as [|line lines IH]; intros s; simpl; [done|].
  rewrite IH, processLine_results.
  by destruct (lineFact v teamName line).
Qed.

Lemma processFiles_results v b files s :
  results (processFiles v b files s)
  = fold_left recordFact (filesFacts v files) (results s).
Proof.
  revert s. induction files as [|f files IH]; intros s; simpl; [done|].
  unfold processFile, fileFacts. destruct (fileContent f); [|done].
  by rewrite IH, processLines_results, fold_left_app.
Qed.

Lemma processBranch_results v b s :
  results (processBranch v b s)
  = fold_left recordFact (extracted v b) (results s).
Proof.
  unfold processBranch, extracted. destruct (checkoutOk b); [|done].
  destruct (summariesDir b); [|done]. apply processFiles_results.
Qed.

Lemma run_from_results v branches s :
  results (fold_left (λ s b, processBranch v b s) branches s)
  = fold_left recordFact (allExtracted v branches) (results s).
Proof.
  revert s. unfold allExtracted.
  induction branches as [|b bs IH]; intros s; simpl; [done|].
  by rewrite IH, processBranch_results, fold_left_app.
Qed.

(** The result table is the fold of the writes over the extracted facts. *)
Lemma run_results v branches :
  results (run v branches) = fold_left recordFact (allExtracted v branches) [].
Proof. apply run_from_results. Qed.
End Aggregator.

(** ** Last write wins *)

Section LastWrite.
Implicit Types (facts : list Fact) (trace team : jsstring).

Lemma lastStatus_from facts trace team acc :
  fold_left
    (λ acc f, if decide (f.1.2 = trace ∧ f.1.1 = team) then Some f.2 else acc)
    facts acc
  = match lastStatus facts trace team with Some st => Some st | None => acc end.
Proof.
  unfold lastStatus. revert acc.
  induction facts as [|f facts IH]; intros acc; cbn [fold_left]; [done|].
  rewrite (IH (if decide (f.1.2 = trace ∧ f.1.1 = team) then Some f.2 else acc)),
    (IH (if decide (f.1.2 = trace ∧ f.1.1 = team) then Some f.2 else None)).
  destruct (fold_left _ facts _); [done|]. by case_decide.
Qed.

Lemma lastStatus_app facts1 facts2 trace team :
  lastStatus (facts1 ++ facts2) trace team =
  match lastStatus facts2 trace team with
  | Some st => Some st
  | None => lastStatus facts1 trace team
  end.
Proof.
  unfold lastStatus at 1. rewrite fold_left_app. apply lastStatus_from.
Qed.

Lemma lastStatus_absent facts trace team :
  (∀ st, (team, trace, st) ∉ facts) → lastStatus facts trace team = None.
Proof.
  induction facts as [|[[tm tr] st] facts IH]; intros Hno; [done|].
  unfold lastStatus. cbn [fold_left]. rewrite lastStatus_from.
  rewrite IH by (intros st' Hin; apply (Hno st'); by right).
  rewrite decide_False; [done|]. cbn. intros [-> ->]. apply (Hno st). left.
Qed.

Lemma lastStatus_Some_elem facts trace team st :
  lastStatus facts trace team = Some st → (team, trace, st) ∈ facts.
Proof.
  induction facts as [|[[tm tr] st'] facts IH] using rev_ind; [done|].
  rewrite lastStatus_app, elem_of_app, list_elem_of_singleton.
  unfold lastStatus at 1. cbn. case_decide as Hd.
  - destruct Hd as [-> ->]. intros [= ->]. by right.
  - intros H. left. by apply IH.
Qed.

(** The cell of a (trace, team) pair holds the status of the last fact about
    the pair. *)
Lemma statusOf_fold_facts facts r trace team :
  statusOf (fold_left recordFact facts r) trace team =
  match lastStatus facts trace team with
  | Some st => Some st
  | None => statusOf r trace team
  end.
Proof.
  revert r. induction facts as [|[[tm tr] st] facts IH]; intros r; [done|].
  cbn [fold_left]. rewrite IH. unfold lastStatus at 2. cbn [fold_left].
  rewrite lastStatus_from. destruct (lastStatus facts trace team); [done|].
  change (recordFact r (tm, tr, st)) with (recordStatus tr tm st r).
  cbn [fst snd]. rewrite statusOf_recordStatus.
  destruct (decide (trace = tr ∧ team = tm)) as [[-> ->]|Hne].
  - by rewrite decide_True.
  - rewrite decide_False; [done|]. intros [-> ->]. by destruct Hne.
Qed.

Lemma keys_fold_facts facts r trace :
  trace ∈ jsmap_keys (fold_left recordFact facts r) ↔
  trace ∈ jsmap_keys r ∨ ∃ team st, (team, trace, st) ∈ facts.
Proof.
  revert r. induction facts as [|[[tm tr] st] facts IH]; intros r.
  - cbn. split; [by left|]. intros [?|(? & ? & ?%elem_of_nil)]; done.
  - cbn [fold_left]. rewrite IH.
    change (recordFact r (tm, tr, st)) with (recordStatus tr tm st r).
    rewrite recordStatus_keys, jsset_add_elem. split.
    + intros [[->|?]|(tm' & st' & Hin)]; [right|by left|right].
      * exists tm, st. left.
      * exists tm', st'. by right.
    + intros [?|(tm' & st' & Hin)]; [by left; right|].
      apply elem_of_cons in Hin as [[= -> -> ->]|Hin]; [by left; left|].
      right. eauto.
Qed.

Lemma NoDup_keys_fold_facts facts r :
  NoDup (jsmap_keys r) → NoDup (jsmap_keys (fold_left recordFact facts r)).
Proof.
  revert r. induction facts as [|f facts IH]; intros r Hr; [done|].
  cbn [fold_left]. apply IH. unfold recordFact.
  rewrite recordStatus_keys. by apply jsset_add_NoDup.
Qed.

Lemma allExtracted_app v l1 l2 :
  allExtracted v (l1 ++ l2) = allExtracted v l1 ++ allExtracted v l2.
Proof. unfold allExtracted. by rewrite map_app, concat_app. Qed.

Lemma allExtracted_cons v b l :
  allExtracted v (b :: l) = extracted v b ++ allExtracted v l.
Proof. done. Qed.

Lemma allExtracted_elem v l f :
  f ∈ allExtracted v l ↔ ∃ b, b ∈ l ∧ f ∈ extracted v b.
Proof.
  induction l as [|b l IH].
  - split; [by intros ?%elem_of_nil|by intros (? & ?%elem_of_nil & _)].
  - rewrite allExtracted_cons, elem_of_app, IH. split.
    + intros [?|(b' & ? & ?)]; [exists b|exists b']; split; try done;
        [left|by right].
    + intros (b' & [->|?]%elem_of_cons & ?); [by left|right; eauto].
Qed.
End LastWrite.

(** C2.  When a (trace-id, team) pair is extracted on branch [B1] and again,
    with status [s2], on a branch [B2] that is processed later, and on no
    branch after [B2], the result table holds [s2] for the pair at the end
    of the run, whatever [B1] had recorded. *)
Theorem last_write_wins v l0 B1 l1 B2 l2 trace team s1 s2 :
  (team, trace, s1) ∈ extracted v B1 →
  lastStatus (extracted v B2) trace team = Some s2 →
  (∀ b st, b ∈ l2 → (team, trace, st) ∉ extracted v b) →
  statusOf (results (run v (l0 ++ B1 :: l1 ++ B2 :: l2))) trace team = Some s2.
Proof.
  intros _ H2 Hlater. rewrite run_results, statusOf_fold_facts.
  rewrite allExtracted_app, allExtracted_cons, allExtracted_app,
    allExtracted_cons, !lastStatus_app.
  rewrite (lastStatus_absent (allExtracted v l2)), H2; [done|].
  intros st (b & Hb & Hin)%allExtracted_elem. by apply (Hlater b st).
Qed.

(** ** Sorting *)

Section SortFacts.
Context {A : Type} (cmp : A → A → Z).
Implicit Types (l : list A).

Lemma sortInsert_Permutation x l : sortInsert cmp x l ≡ₚ x :: l.
Proof.
  induction l as [|y l IH]; cbn [sortInsert]; [done|].
  destruct (cmp x y <=? 0)%Z; [done|]. by rewrite IH, Permutation_swap.
Qed.

Lemma sortBy_Permutation l : sortBy cmp l ≡ₚ l.
Proof.
  induction l as [|x l IH]; cbn [sortBy]; [done|].
  by rewrite sortInsert_Permutation, IH.
Qed.

Lemma elem_of_sortBy l x : x ∈ sortBy cmp l ↔ x ∈ l.
Proof. by rewrite sortBy_Permutation. Qed.

Lemma NoDup_sortBy l : NoDup l → NoDup (sortBy cmp l).
Proof. by rewrite sortBy_Permutation. Qed.

Lemma length_sortBy l : length (sortBy cmp l) = length l.
Proof. by rewrite sortBy_Permutation. Qed.

Lemma sortInsert_Sorted `{!Total (inOrder cmp)} x l :
  Sorted (inOrder cmp) l → Sorted (inOrder cmp) (sortInsert cmp x l).
Proof.
  induction 1 as [|y l Hl IH Hy]; cbn [sortInsert].
  - by repeat constructor.
  - destruct (Z.leb_spec (cmp x y) 0) as [Hle|Hgt].
    + by repeat constructor.
    + constructor; [done|].
      assert (inOrder cmp y x) as Hyx.
      { destruct (total (inOrder cmp) x y) as [H|H]; [|done].
        unfold inOrder in H. lia. }
      destruct Hy as [|z l Hz]; cbn [sortInsert]; [by constructor|].
      destruct (cmp x z <=? 0)%Z; by constructor.
Qed.

Lemma sortBy_Sorted `{!Total (inOrder cmp)} l : Sorted (inOrder cmp) (sortBy cmp l).
Proof.
  induction l as [|x l IH]; cbn [sortBy]; [constructor|].
  by apply sortInsert_Sorted.
Qed.

Lemma sortBy_StronglySorted `{!Total (inOrder cmp), !Transitive (inOrder cmp)} l :
  StronglySorted (inOrder cmp) (sortBy cmp l).
Proof. apply Sorted_StronglySorted; [done|]. by apply sortBy_Sorted. Qed.

(** Under a total order the sorted array does not depend on the order of
    the input. *)
Lemma sortBy_order_irrelevant
    `{!Total (inOrder cmp), !Transitive (inOrder cmp),
      !AntiSymm (=) (inOrder cmp)} l1 l2 :
  l1 ≡ₚ l2 → sortBy cmp l1 = sortBy cmp l2.
Proof.
  intros Hp. apply (StronglySorted_unique (inOrder cmp)).
  - by apply sortBy_StronglySorted.
  - by apply sortBy_StronglySorted.
  - by rewrite !sortBy_Permutation.
Qed.

(** The same when the comparator is a total order on the names at hand
    only. *)
Lemma sortInsert_StronglySorted_on x l :
  (∀ y, y ∈ l → inOrder cmp x y ∨ inOrder cmp y x) →
  (∀ a b c, a ∈ x :: l → b ∈ x :: l → c ∈ x :: l →
     inOrder cmp a b → inOrder cmp b c → inOrder cmp a c) →
  StronglySorted (inOrder cmp) l →
  StronglySorted (inOrder cmp) (sortInsert cmp x l).
Proof.
  intros Htot Htr Hl. induction Hl as [|y l Hl IH Hy]; cbn [sortInsert].
  - by repeat constructor.
  - rewrite Forall_forall in Hy.
    destruct (Z.leb_spec (cmp x y) 0) as [Hle|Hgt].
    + constructor; [by constructor; [|apply Forall_forall]|].
      constructor; [done|]. apply Forall_forall. intros z Hz.
      apply (Htr x y z); rewrite ?elem_of_cons; auto.
    + constructor.
      * apply IH.
        -- intros z Hz. apply Htot. by right.
        -- intros a b c Ha Hb Hc. apply Htr; rewrite !elem_of_cons;
             rewrite elem_of_cons in Ha, Hb, Hc; tauto.
      * apply Forall_forall. intros z Hz.
        rewrite sortInsert_Permutation in Hz.
        apply elem_of_cons in Hz as [->|Hz]; [|by apply Hy].
        destruct (Htot y) as [H|H]; [left| |done].
        unfold inOrder in H. lia.
Qed.

Lemma sortBy_StronglySorted_on names l :
  TotalOrderOn cmp names → (∀ x, x ∈ l → x ∈ names) →
  StronglySorted (inOrder cmp) (sortBy cmp l).
Proof.
  intros (Htot & Htr & _) Hsub.
  induction l as [|x l IH]; cbn [sortBy]; [constructor|].
  assert (∀ a, a ∈ x :: sortBy cmp l → a ∈ names) as Hin.
  { intros a. rewrite elem_of_cons, elem_of_sortBy, <-elem_of_cons.
    apply Hsub. }
  apply sortInsert_StronglySorted_on.
  - intros y Hy. apply Htot; apply Hin; [left|by right].
  - intros a b c Ha Hb Hc. apply Htr; by apply Hin.
  - apply IH. intros y Hy. apply Hsub. by right.
Qed.

Lemma sortBy_order_irrelevant_on names l1 l2 :
  TotalOrderOn cmp names → (∀ x, x ∈ l1 → x ∈ names) →
  l1 ≡ₚ l2 → sortBy cmp l1 = sortBy cmp l2.
Proof.
  intros Hord Hsub Hp. apply (StronglySorted_unique_strong (inOrder cmp)).
  - intros x1 x2 H1 H2. rewrite elem_of_sortBy in H1, H2.
    destruct Hord as (_ & _ & Hanti). apply Hanti; apply Hsub; [done|].
    by rewrite Hp.
  - by apply (sortBy_StronglySorted_on names).
  - apply (sortBy_StronglySorted_on names); [done|].
    intros x Hx. apply Hsub. by rewrite Hp.
  - by rewrite !sortBy_Permutation.
Qed.

(** A total order on all values is one on any names. *)
Lemma TotalOrderOn_order
    `{!Total (inOrder cmp), !Transitive (inOrder cmp),
      !AntiSymm (=) (inOrder cmp)} names :
  TotalOrderOn cmp names.
Proof.
  split_and!.
  - intros a b _ _. apply (total (inOrder cmp)).
  - intros a b c _ _ _. apply (transitivity (R:=inOrder cmp)).
  - intros a b _ _. apply (anti_symm (inOrder cmp)).
Qed.

(** Two comparators that agree on the elements sort alike. *)
Lemma sortInsert_ext (cmp' : A → A → Z) x l :
  (∀ y, y ∈ l → cmp x y = cmp' x y) →
  sortInsert cmp x l = sortInsert cmp' x l.
Proof.
  induction l as [|y l IH]; intros H; cbn [sortInsert]; [done|].
  rewrite <-(H y) by left. destruct (cmp x y <=? 0)%Z; [done|].
  f_equal. apply IH. intros z Hz. apply H. by right.
Qed.
End SortFacts.

Lemma sortBy_ext {A} (cmp cmp' : A → A → Z) (l : list A) :
  (∀ x y, x ∈ l → y ∈ l → cmp x y = cmp' x y) →
  sortBy cmp l = sortBy cmp' l.
Proof.
  induction l as [|x l IH]; intros H; cbn [sortBy]; [done|].
  rewrite IH by (intros y z Hy Hz; apply H; by right).
  apply sortInsert_ext. intros y Hy%elem_of_sortBy. apply H; [left|by right].
Qed.

(** The default order is a total order on strings. *)
Global Instance defaultCompare_total : Total (inOrder defaultCompare).
Proof.
  unfold inOrder. intros a. induction a as [|c a IH]; intros [|d b];
    cbn [defaultCompare]; try (by left); try (by right).
  destruct (N.ltb_spec c d), (N.ltb_spec d c); try lia; try (by left);
    try (by right). apply IH.
Qed.

Global Instance defaultCompare_trans : Transitive (inOrder defaultCompare).
Proof.
  unfold inOrder. intros a. induction a as [|c a IH]; intros [|d b] [|e z];
    cbn [defaultCompare]; try done.
  destruct (N.ltb_spec c d), (N.ltb_spec d e), (N.ltb_spec c e),
    (N.ltb_spec d c), (N.ltb_spec e d), (N.ltb_spec e c); try lia; try done.
  apply IH.
Qed.

Global Instance defaultCompare_antisym : AntiSymm (=) (inOrder defaultCompare).
Proof.
  unfold inOrder. intros a. induction a as [|c a IH]; intros [|d b];
    cbn [defaultCompare]; try done.
  destruct (N.ltb_spec c d), (N.ltb_spec d c); try lia; try done.
  intros H1 H2. assert (c = d) as -> by lia. f_equal. by apply IH.
Qed.

(** [canonCompare] compares any two strings and is transitive, and it
    gives [0] for the two spellings of [é]. *)
Global Instance canonCompare_total : Total (inOrder canonCompare).
Proof.
  intros a b. apply (total (inOrder defaultCompare)).
Qed.

Global Instance canonCompare_trans : Transitive (inOrder canonCompare).
Proof.
  intros a b c. apply (transitivity (R:=inOrder defaultCompare)).
Qed.

Lemma canonCompare_not_antisym : ¬ AntiSymm (=) (inOrder canonCompare).
Proof.
  intros H. specialize (H eComposed eDecomposed).
  assert (eComposed = eDecomposed) as E; [|discriminate E].
  apply H; unfold inOrder; by vm_compute.
Qed.

(** ** Invariants of the aggregation *)

Section Invariants.
Context (v : Variant).
Implicit Types (s : State) (trace team : jsstring).

Lemma reachable_lines b teamName lines s :
  reachable v s → teamName ∈ allTeams s →
  reachable v (fold_left (λ st line, processLine v b teamName line st) lines s).
Proof.
  revert s. induction lines as [|line lines IH]; intros s Hs Ht; [done|].
  cbn [fold_left]. apply IH.
  - by constructor.
  - by rewrite processLine_allTeams.
Qed.

Lemma reachable_file b f s :
  reachable v s → reachable v (processFile v b f s).1.
Proof.
  intros Hs. unfold processFile.
  assert (reachable v (addTeam (teamNameOf (fileName f)) s)) by by constructor.
  destruct (fileContent f); [|done]. cbn [fst].
  apply reachable_lines; [done|]. apply jsset_add_elem. by left.
Qed.

Lemma reachable_files b files s :
  reachable v s → reachable v (processFiles v b files s).
Proof.
  revert s. induction files as [|f files IH]; intros s Hs; [done|].
  cbn [processFiles]. pose proof (reachable_file b f s Hs) as Hf.
  destruct (processFile v b f s) as [s1 []]; [by apply IH|done].
Qed.

Lemma reachable_branch b s : reachable v s → reachable v (processBranch v b s).
Proof.
  intros Hs. unfold processBranch. destruct (checkoutOk b); [|done].
  destruct (summariesDir b); [|done]. by apply reachable_files.
Qed.

(** Every state of a run, and its final state, is reachable. *)
Lemma run_reachable branches : reachable v (run v branches).
Proof.
  unfold run. generalize (reachable_init v).
  generalize initialState. induction branches as [|b bs IH]; intros s Hs;
    [done|].
  cbn [fold_left]. by apply IH, reachable_branch.
Qed.

Lemma reachable_inner s trace inner :
  reachable v s → jsmap_get (results s) trace = Some inner → inner ≠ [].
Proof.
  intros Hs. revert trace inner.
  induction Hs as [|s t Hs IH|s b t line Hs IH Ht]; intros trace inner.
  - done.
  - apply IH.
  - rewrite processLine_results. destruct (lineFact v t line) as [f|]; [|apply IH].
    by apply recordStatus_inner.
Qed.

Lemma reachable_NoDup_keys s : reachable v s → NoDup (jsmap_keys (results s)).
Proof.
  induction 1 as [|s t Hs IH|s b t line Hs IH Ht].
  - constructor.
  - done.
  - rewrite processLine_results. destruct (lineFact v t line) as [f|]; [|done].
    unfold recordFact. rewrite recordStatus_keys. by apply jsset_add_NoDup.
Qed.

Lemma reachable_NoDup_teams s : reachable v s → NoDup (allTeams s).
Proof.
  induction 1 as [|s t Hs IH|s b t line Hs IH Ht].
  - constructor.
  - by apply jsset_add_NoDup.
  - by rewrite processLine_allTeams.
Qed.

(** A status is only ever recorded for a team of [allTeams]. *)
Lemma reachable_status_team s trace team st :
  reachable v s → statusOf (results s) trace team = Some st →
  team ∈ allTeams s.
Proof.
  intros Hs. revert trace team st.
  induction Hs as [|s t Hs IH|s b t line Hs IH Ht]; intros trace team st.
  - done.
  - intros H. apply jsset_add_elem. right. by eapply IH.
  - rewrite processLine_results, processLine_allTeams.
    unfold lineFact. destruct (lineMatch v line) as [[status traceId]|];
      [|apply IH].
    unfold recordFact. cbn [fst snd]. rewrite statusOf_recordStatus.
    case_decide as Hd; [by destruct Hd as [_ ->]|apply IH].
Qed.

Lemma inner_nonempty_status (inner : list (jsstring * Status)) :
  inner ≠ [] → ∃ team st, jsmap_get inner team = Some st.
Proof.
  destruct inner as [|[team st] inner]; [done|]. intros _.
  exists team, st. cbn. by rewrite decide_True.
Qed.
End Invariants.

(** C10.  In every state the aggregation is in between two steps of its
    loops, each trace identifier that is a key of the result table has a
    recorded status for at least one team: the step that creates the entry
    of a trace writes a status into it.  The final state of a run is such a
    state, so every trace that is sorted, partitioned and rendered has a
    status. *)
Theorem trace_entry_has_status v :
  (∀ s trace, reachable v s → trace ∈ jsmap_keys (results s) →
     ∃ team status, statusOf (results s) trace team = Some status)
  ∧ (∀ branches, reachable v (run v branches))
  ∧ (∀ branches trace, trace ∈ allTraces (run v branches) →
       ∃ team status,
         statusOf (results (run v branches)) trace team = Some status).
Proof.
  assert (∀ s trace, reachable v s → trace ∈ jsmap_keys (results s) →
     ∃ team status, statusOf (results s) trace team = Some status) as H.
  { intros s trace Hs [inner E]%jsmap_keys_get. unfold statusOf. rewrite E.
    eapply inner_nonempty_status, reachable_inner; eauto. }
  split_and!; [done|apply run_reachable|].
  intros branches trace Hin. apply H; [apply run_reachable|].
  by apply elem_of_sortBy in Hin.
Qed.

(** ** The partition of the traces *)

Section Partition.
Implicit Types (r : list (jsstring * list (jsstring * Status))).
Implicit Types (teams traces : list jsstring).

Lemma elem_of_List_filter {A} (f : A → bool) (l : list A) x :
  x ∈ List.filter f l ↔ x ∈ l ∧ f x = true.
Proof. rewrite !list_elem_of_In. apply filter_In. Qed.

Lemma List_filter_sublist {A} (f : A → bool) (l : list A) :
  List.filter f l `sublist_of` l.
Proof.
  induction l as [|x l IH]; cbn [List.filter]; [constructor|].
  destruct (f x); by constructor.
Qed.

Lemma List_filter_split {A} (f : A → bool) (l : list A) :
  List.filter f l ++ List.filter (λ x, negb (f x)) l ≡ₚ l.
Proof.
  induction l as [|x l IH]; cbn [List.filter]; [done|].
  destruct (f x); cbn [negb app]; [by rewrite IH|].
  by rewrite <-Permutation_middle, IH.
Qed.

Lemma partition_loop r teams traces (a b : list jsstring) :
  fold_left
    (λ acc trace,
       if hasFailure r teams trace then (acc.1 ++ [trace], acc.2)
       else (acc.1, acc.2 ++ [trace]))
    traces (a, b)
  = (a ++ List.filter (hasFailure r teams) traces,
     b ++ List.filter (λ trace, negb (hasFailure r teams trace)) traces).
Proof.
  revert a b.
  induction traces as [|trace traces IH]; intros a b;
    cbn [fold_left List.filter].
  - by rewrite !app_nil_r.
  - destruct (hasFailure r teams trace); cbn [negb fst snd];
      by rewrite IH, <-?app_assoc.
Qed.

(** The two arrays the loop fills are the two filters of its input. *)
Lemma partitionTraces_filter r teams traces :
  partitionTraces r teams traces =
  (List.filter (hasFailure r teams) traces,
   List.filter (λ trace, negb (hasFailure r teams trace)) traces).
Proof. apply partition_loop. Qed.

Lemma anyRed_true (m : list (jsstring * Status)) teams :
  anyRed m teams = true ↔ ∃ team, team ∈ teams ∧ jsmap_get m team = Some Red.
Proof.
  induction teams as [|t teams IH]; cbn [anyRed].
  - split; [done|]. by intros (? & ?%elem_of_nil & _).
  - case_decide as Hd.
    + split; [|done]. intros _. exists t. split; [left|done].
    + rewrite IH. split.
      * intros (team & ? & ?). exists team. split; [by right|done].
      * intros (team & [->|?]%elem_of_cons & ?); [done|eauto].
Qed.

Lemma hasFailure_true r teams trace :
  hasFailure r teams trace = true ↔
  ∃ team, team ∈ teams ∧ statusOf r trace team = Some Red.
Proof.
  unfold hasFailure, statusOf. destruct (jsmap_get r trace) as [m|].
  - apply anyRed_true.
  - split; [done|]. by intros (? & _ & ?).
Qed.

Lemma elem_of_sortedTeams lc v s team :
  team ∈ sortedTeams lc v s ↔ team ∈ allTeams s.
Proof. destruct v; apply elem_of_sortBy. Qed.

(** On a reachable state the failure test sees every recorded failure:
    the teams it walks are all the teams a status was recorded for. *)
Lemma hasFailure_reachable lc v s trace :
  reachable v s →
  hasFailure (results s) (sortedTeams lc v s) trace = true ↔
  ∃ team, statusOf (results s) trace team = Some Red.
Proof.
  intros Hs. rewrite hasFailure_true. split.
  - intros (team & _ & ?). eauto.
  - intros (team & Hred). exists team. split; [|done].
    apply elem_of_sortedTeams. by eapply reachable_status_team.
Qed.
End Partition.

(** C1.  At the end of a run the sorted trace identifiers are split into two
    groups: a trace is in the interesting group exactly when some team's
    recorded status for it is the failing one, and in the other group
    otherwise.  Both groups keep the sorted order, they are disjoint and
    together they are all the traces; a trace without any recorded status
    is not in the interesting group. *)
Theorem partition_by_failure lc v branches :
  let s := run v branches in
  let interesting := interestingTraces lc v s in
  let boring := boringTraces lc v s in
  (∀ trace, trace ∈ interesting ↔
            ∃ team, statusOf (results s) trace team = Some Red)
  ∧ (∀ trace, trace ∈ boring ↔
              trace ∈ allTraces s
              ∧ ¬ ∃ team, statusOf (results s) trace team = Some Red)
  ∧ interesting `sublist_of` allTraces s
  ∧ boring `sublist_of` allTraces s
  ∧ (∀ trace, trace ∈ interesting → trace ∉ boring)
  ∧ interesting ++ boring ≡ₚ allTraces s
  ∧ (∀ trace, (∀ team, statusOf (results s) trace team = None) →
              trace ∉ interesting).
Proof.
  intros s interesting boring.
  pose proof (run_reachable v branches : reachable v s) as Hs.
  assert (∀ trace, trace ∈ interesting ↔
            ∃ team, statusOf (results s) trace team = Some Red) as Hi.
  { intros trace. unfold interesting, interestingTraces.
    rewrite partitionTraces_filter. cbn [fst].
    rewrite elem_of_List_filter, (hasFailure_reachable lc v s trace Hs).
    split; [by intros [_ ?]|]. intros [team Hred]. split; [|eauto].
    apply elem_of_sortBy. by eapply statusOf_Some_keys. }
  assert (∀ trace, trace ∈ boring ↔
            trace ∈ allTraces s
            ∧ ¬ ∃ team, statusOf (results s) trace team = Some Red) as Hb.
  { intros trace. unfold boring, boringTraces.
    rewrite partitionTraces_filter. cbn [snd].
    rewrite elem_of_List_filter, <-(hasFailure_reachable lc v s trace Hs).
    by rewrite negb_true_iff, not_true_iff_false. }
  split_and!; try done.
  - unfold interesting, interestingTraces. rewrite partitionTraces_filter.
    apply List_filter_sublist.
  - unfold boring, boringTraces. rewrite partitionTraces_filter.
    apply List_filter_sublist.
  - intros trace Hin [_ Hno]%Hb. by apply Hno, Hi.
  - unfold interesting, boring, interestingTraces, boringTraces.
    rewrite partitionTraces_filter. apply List_filter_split.
  - intros trace Hnone [team Hred]%Hi. by rewrite Hnone in Hred.
Qed.

(** ** The team totals *)

Section Totals.
Implicit Types (r : list (jsstring * list (jsstring * Status))).
Implicit Types (s : State) (team : jsstring) (traces : list jsstring).

Lemma count_loop r team traces acc :
  fold_left (countStatus r team) traces acc =
  {| red := red acc + countTraces r traces team (Some Red);
     green := green acc + countTraces r traces team (Some Green);
     unknown := unknown acc + countTraces r traces team None |}.
Proof.
  unfold countTraces. revert acc.
  induction traces as [|trace traces IH]; intros [a b c];
    cbn [fold_left List.filter length red green unknown].
  - by rewrite !Nat.add_0_r.
  - rewrite IH. unfold countStatus.
    destruct (statusOf r trace team) as [[]|];
      cbn [red green unknown];
      repeat (case_bool_decide; try done);
      cbn [length]; f_equal; lia.
Qed.

(** The counters of a team are the totals over all traces. *)
Lemma teamCounts_spec s team :
  teamCounts s team =
  {| red := countTraces (results s) (allTraces s) team (Some Red);
     green := countTraces (results s) (allTraces s) team (Some Green);
     unknown := countTraces (results s) (allTraces s) team None |}.
Proof. unfold teamCounts. by rewrite count_loop. Qed.

Lemma count_loop_sum r team traces acc :
  let c := fold_left (countStatus r team) traces acc in
  (red c + green c + unknown c
   = red acc + green acc + unknown acc + length traces)%nat.
Proof.
  revert acc. induction traces as [|trace traces IH]; intros acc;
    cbn [fold_left length]; [cbn; lia|].
  cbn zeta in IH. rewrite IH. unfold countStatus.
  destruct (statusOf r trace team) as [[]|]; cbn [red green unknown]; lia.
Qed.

Lemma stats_loop_get {V} (g : jsstring → V) teams (m : list (jsstring * V)) team :
  jsmap_get (fold_left (λ m t, jsmap_set m t (g t)) teams m) team =
  if decide (team ∈ teams) then Some (g team) else jsmap_get m team.
Proof.
  revert m. induction teams as [|t teams IH]; intros m; cbn [fold_left].
  - rewrite decide_False; [done|apply not_elem_of_nil].
  - rewrite IH. destruct (decide (team ∈ teams)) as [Hin|Hout].
    + rewrite decide_True; [done|by right].
    + destruct (decide (team = t)) as [->|Hne].
      * rewrite jsmap_get_set_eq, decide_True; [done|left].
      * rewrite jsmap_get_set_ne by done. rewrite decide_False; [done|].
        by rewrite not_elem_of_cons.
Qed.

(** [teamStats.get(team)!] finds the counters of every team of the loop. *)
Lemma teamStats_get lc s team :
  team ∈ sortedTeams lc Full s →
  jsmap_get (teamStats lc s) team = Some (teamCounts s team).
Proof.
  intros Hin. unfold teamStats. by rewrite stats_loop_get, decide_True.
Qed.

Lemma statsOf_teamCounts lc s team :
  team ∈ sortedTeams lc Full s → statsOf lc s team = teamCounts s team.
Proof. intros Hin. unfold statsOf. by rewrite teamStats_get. Qed.

(** The traces of the table are the traces of the extracted facts, each
    once. *)
Lemma allTraces_seen v branches trace :
  trace ∈ allTraces (run v branches) ↔
  ∃ team st, (team, trace, st) ∈ allExtracted v branches.
Proof.
  unfold allTraces. rewrite elem_of_sortBy, run_results, keys_fold_facts.
  split; [|by right]. by intros [?%elem_of_nil|?].
Qed.

Lemma allTraces_NoDup v branches : NoDup (allTraces (run v branches)).
Proof. apply NoDup_sortBy, (reachable_NoDup_keys v), run_reachable. Qed.

(** A loop that appends one piece per element. *)
Lemma append_loop {A} (f : A → jsstring) (l : list A) (init : jsstring) :
  fold_left (λ acc x, acc ++ f x) l init = init ++ concat (map f l).
Proof.
  revert init. induction l as [|x l IH]; intros init; cbn [fold_left map concat].
  - by rewrite app_nil_r.
  - by rewrite IH, <-app_assoc.
Qed.

Lemma summary_loop (f : jsstring → Stats) teams (a b c : jsstring) :
  fold_left
    (λ rows team,
       (rows.1.1 ++ js " " ++ numToString (red (f team)) ++ js " |",
        rows.1.2 ++ js " " ++ numToString (green (f team)) ++ js " |",
        rows.2 ++ js " " ++ numToString (unknown (f team)) ++ js " |"))
    teams (a, b, c)
  = (a ++ concat (map (λ team, js " " ++ numToString (red (f team)) ++ js " |") teams),
     b ++ concat (map (λ team, js " " ++ numToString (green (f team)) ++ js " |") teams),
     c ++ concat (map (λ team, js " " ++ numToString (unknown (f team)) ++ js " |") teams)).
Proof.
  revert a b c. induction teams as [|t teams IH]; intros a b c;
    cbn [fold_left map concat fst snd].
  - by rewrite !app_nil_r.
  - by rewrite IH, <-!app_assoc.
Qed.
End Totals.

(** C6.  The traces the totals range over are all the traces of the
    extracted facts, each once, interesting or not.  In the table of
    [index.ts] the three summary rows hold, team by team, the number of
    those traces whose recorded status for the team is failing, passing,
    and absent; in the table of the simplified script the row of a team
    starts with the same three totals. *)
Theorem totals_over_all_traces lc v branches :
  let s := run v branches in
  let count team o := countTraces (results s) (allTraces s) team o in
  let cell (n : nat) := js " " ++ numToString n ++ js " |" in
  (∀ trace, trace ∈ allTraces s ↔
            ∃ team st, (team, trace, st) ∈ allExtracted v branches)
  ∧ NoDup (allTraces s)
  ∧ match v with
    | Full =>
        let teams := sortedTeams lc Full s in
        mdTable lc Full s =
          (js "| Trace | " ++ join (js " | ") teams ++ js " |" ++ nl
           ++ js "|---|" ++ join (js "|") (map (λ _, js "---") teams)
           ++ js "|" ++ nl)
          ++ (js "| " ++ glyph Red ++ js " |"
              ++ concat (map (λ team, cell (count team (Some Red))) teams))
          ++ nl
          ++ (js "| " ++ glyph Green ++ js " |"
              ++ concat (map (λ team, cell (count team (Some Green))) teams))
          ++ nl
          ++ (js "| " ++ whiteCircle ++ js " |"
              ++ concat (map (λ team, cell (count team None)) teams))
          ++ nl
          ++ concat (map (λ trace, traceRow lc s trace ++ nl)
                       (interestingTraces lc Full s))
    | Simplified =>
        let interesting := interestingTraces lc Simplified s in
        mdTable lc Simplified s =
          (js "| Team | " ++ glyph Red ++ js " | " ++ glyph Green ++ js " | "
           ++ whiteCircle ++ js " | " ++ join (js " | ") interesting
           ++ js " |" ++ nl ++ js "|---|---|---|---|"
           ++ join (js "|") (map (λ _, js "---") interesting) ++ js "|" ++ nl)
          ++ concat (map (λ team, teamRow lc s team ++ nl)
                       (sortedTeams lc Simplified s))
        ∧ ∀ team,
            teamRow lc s team =
              (js "| " ++ team ++ js " |" ++ js " "
               ++ numToString (count team (Some Red)) ++ js " | "
               ++ numToString (count team (Some Green)) ++ js " | "
               ++ numToString (count team None) ++ js " |")
              ++ concat (map (λ trace, js " "
                                ++ statusCell (results s) trace team ++ js " |")
                           interesting)
    end.
Proof.
  intros s count cell. split_and!.
  - apply allTraces_seen.
  - apply allTraces_NoDup.
  - destruct v.
    + cbn zeta. unfold mdTable, mdTableFull. cbn zeta.
      rewrite (append_loop (λ trace, traceRow lc s trace ++ nl)).
      unfold summaryRows. cbn zeta.
      rewrite (summary_loop (statsOf lc s)). cbn [fst snd].
      rewrite !(map_ext_in (λ team, js " " ++ numToString (_ (statsOf lc s team)) ++ _)
                 (λ team, js " " ++ numToString (_ (teamCounts s team)) ++ js " |"))
        by (intros team Hin%list_elem_of_In; by rewrite statsOf_teamCounts).
      rewrite !(map_ext (λ team, js " " ++ numToString (_ (teamCounts s team)) ++ _)
                  (λ team, cell (count team _)))
        by (intros team; by rewrite teamCounts_spec).
      by rewrite <-!app_assoc.
    + cbn zeta. split.
      * unfold mdTable, mdTableSimplified. cbn zeta.
        rewrite (append_loop (λ team, teamRow lc s team ++ nl)).
        by rewrite <-!app_assoc.
      * intros team. unfold teamRow. cbn zeta.
        rewrite (append_loop
                   (λ trace, js " " ++ statusCell (results s) trace team ++ js " |")).
        by rewrite teamCounts_spec.
Qed.

(** C9.  For every team the failing, passing and unknown totals add up to
    the number of traces, which is the number of distinct trace identifiers
    among the extracted facts; the totals printed in the summary rows of
    [index.ts] are these counters. *)
Theorem totals_sum_to_trace_count lc v branches team :
  let s := run v branches in
  let c := teamCounts s team in
  (red c + green c + unknown c = length (allTraces s))%nat
  ∧ length (allTraces s)
    = length (remove_dups (map (λ f : Fact, f.1.2) (allExtracted v branches)))
  ∧ (team ∈ sortedTeams lc Full s → statsOf lc s team = c).
Proof.
  intros s c. split_and!.
  - unfold c, teamCounts. by rewrite count_loop_sum.
  - apply Permutation_length, NoDup_Permutation.
    + apply allTraces_NoDup.
    + apply NoDup_remove_dups.
    + intros trace. unfold s.
      rewrite allTraces_seen, elem_of_remove_dups, list_elem_of_In, in_map_iff.
      split.
      * intros (team' & st & Hin). exists (team', trace, st).
        by rewrite <-list_elem_of_In.
      * intros ([[team' trace'] st] & <- & Hin%list_elem_of_In). eauto.
  - apply statsOf_teamCounts.
Qed.

(** ** The order of the teams *)

Section TeamOrder.
Context (lc : jsstring → jsstring → Z).
Implicit Types (l : list jsstring).

Lemma sortInsert_first {A} (cmp : A → A → Z) x (l : list A) :
  (∀ y, (cmp x y <= 0)%Z) → sortInsert cmp x l = x :: l.
Proof.
  intros H. destruct l as [|y l]; cbn [sortInsert]; [done|].
  destruct (Z.leb_spec (cmp x y) 0); [done|]. specialize (H y). lia.
Qed.

Lemma teamCompare_typeberry_l y : teamCompare lc typeberry y = (-1)%Z.
Proof. unfold teamCompare. by rewrite decide_True. Qed.

Lemma teamCompare_typeberry_r x :
  x ≠ typeberry → teamCompare lc x typeberry = 1%Z.
Proof. intros. unfold teamCompare. by rewrite decide_False, decide_True. Qed.

Lemma teamCompare_other x y :
  x ≠ typeberry → y ≠ typeberry → teamCompare lc x y = lc x y.
Proof. intros. unfold teamCompare. by rewrite !decide_False. Qed.

(** Without the priority team the comparator is [localeCompare]. *)
Lemma sortBy_teamCompare_absent l :
  typeberry ∉ l → sortBy (teamCompare lc) l = sortBy lc l.
Proof.
  intros Hno. apply sortBy_ext. intros x y Hx Hy.
  apply teamCompare_other; by intros ->.
Qed.

Lemma others_absent l :
  typeberry ∉ l → List.filter (λ t, bool_decide (t ≠ typeberry)) l = l.
Proof.
  induction l as [|x l IH]; [done|]. intros [Hx Hl]%not_elem_of_cons.
  cbn [List.filter]. rewrite bool_decide_eq_true_2 by done. by rewrite IH.
Qed.

Lemma others_elem l x :
  x ∈ List.filter (λ t, bool_decide (t ≠ typeberry)) l ↔ x ∈ l ∧ x ≠ typeberry.
Proof. by rewrite elem_of_List_filter, bool_decide_eq_true. Qed.

(** With the priority team among distinct names, it comes first and the
    others follow as [localeCompare] sorts them. *)
Lemma sortBy_teamCompare_present l :
  NoDup l → typeberry ∈ l →
  sortBy (teamCompare lc) l =
  typeberry :: sortBy lc (List.filter (λ t, bool_decide (t ≠ typeberry)) l).
Proof.
  induction l as [|x l IH]; [by intros _ ?%elem_of_nil|].
  intros [Hx Hl]%NoDup_cons Hin. cbn [sortBy List.filter].
  destruct (decide (x = typeberry)) as [->|Hne].
  - rewrite bool_decide_eq_false_2 by (by intros ?).
    rewrite others_absent, sortBy_teamCompare_absent by done.
    apply sortInsert_first. intros y. by rewrite teamCompare_typeberry_l.
  - rewrite bool_decide_eq_true_2 by done.
    apply elem_of_cons in Hin as [?|Hin]; [done|].
    rewrite IH by done. cbn [sortInsert sortBy].
    rewrite teamCompare_typeberry_r by done. cbn. f_equal.
    apply sortInsert_ext. intros y Hy%elem_of_sortBy.
    apply others_elem in Hy as [_ Hyne]. by apply teamCompare_other.
Qed.
End TeamOrder.

(** C7, as the scripts have it.  In [index.ts] the team [typeberry], when
    discovered, is the first of the sorted teams and the other teams follow
    it in [localeCompare] order; without it all teams are in
    [localeCompare] order.  The simplified script has no priority team: its
    teams are in the default code-unit order.  Either way the sorted teams
    are the discovered teams, each once. *)
Theorem team_order lc `{!Total (inOrder lc), !Transitive (inOrder lc)}
    v branches :
  let s := run v branches in
  (typeberry ∈ allTeams s →
     ∃ rest, sortedTeams lc Full s = typeberry :: rest
             ∧ (typeberry ∉ rest)
             ∧ StronglySorted (inOrder lc) rest)
  ∧ (typeberry ∉ allTeams s →
       StronglySorted (inOrder lc) (sortedTeams lc Full s))
  ∧ StronglySorted (inOrder defaultCompare) (sortedTeams lc Simplified s)
  ∧ (∀ v', sortedTeams lc v' s ≡ₚ allTeams s ∧ NoDup (sortedTeams lc v' s)).
Proof.
  intros s.
  assert (NoDup (allTeams s)) as Hnd
    by apply (reachable_NoDup_teams v), run_reachable.
  split_and!.
  - intros Hin.
    exists (sortBy lc (List.filter (λ t, bool_decide (t ≠ typeberry)) (allTeams s))).
    split_and!.
    + by apply sortBy_teamCompare_present.
    + rewrite elem_of_sortBy, others_elem. by intros [_ ?].
    + by apply sortBy_StronglySorted.
  - intros Hout. cbn [sortedTeams]. rewrite sortBy_teamCompare_absent by done.
    by apply sortBy_StronglySorted.
  - apply sortBy_StronglySorted; apply _.
  - intros v'. destruct v'; cbn [sortedTeams];
      (split; [apply sortBy_Permutation|by apply NoDup_sortBy]).
Qed.

(** ** The table as a function of the content of the collections *)

Section Content.
Context (lc : jsstring → jsstring → Z).
Implicit Types (s : State).

Lemma fold_left_pointwise {A B} (f g : A → B → A) (l : list B) (a : A) :
  (∀ a x, f a x = g a x) → fold_left f l a = fold_left g l a.
Proof.
  intros H. revert a. induction l as [|x l IH]; intros a; [done|].
  cbn [fold_left]. by rewrite H, IH.
Qed.

(** The sorted teams do not depend on the order of insertion: in the
    simplified script always, in [index.ts] when [localeCompare] is a total
    order on the team names. *)
Lemma sortedTeams_content_simplified s1 s2 :
  NoDup (allTeams s1) → NoDup (allTeams s2) →
  (∀ team, team ∈ allTeams s1 ↔ team ∈ allTeams s2) →
  sortedTeams lc Simplified s1 = sortedTeams lc Simplified s2.
Proof.
  intros H1 H2 Heq. cbn [sortedTeams].
  apply sortBy_order_irrelevant; try apply _. by apply NoDup_Permutation.
Qed.

Lemma sortedTeams_content_full s1 s2 :
  NoDup (allTeams s1) → NoDup (allTeams s2) →
  (∀ team, team ∈ allTeams s1 ↔ team ∈ allTeams s2) →
  TotalOrderOn lc (allTeams s1) →
  sortedTeams lc Full s1 = sortedTeams lc Full s2.
Proof.
  intros H1 H2 Heq Hord.
  assert (allTeams s1 ≡ₚ allTeams s2) as Hp by by apply NoDup_Permutation.
  cbn [sortedTeams].
  destruct (decide (typeberry ∈ allTeams s1)) as [Hin|Hout].
  - rewrite !sortBy_teamCompare_present by (done || by apply Heq).
    f_equal. apply (sortBy_order_irrelevant_on lc (allTeams s1)); [done| |].
    + by intros x [? _]%others_elem.
    + apply NoDup_Permutation.
      * apply (sublist_NoDup _ (allTeams s1)); [done|apply List_filter_sublist].
      * apply (sublist_NoDup _ (allTeams s2)); [done|apply List_filter_sublist].
      * intros x. by rewrite !others_elem, Heq.
  - rewrite !sortBy_teamCompare_absent by (done || by rewrite <-Heq).
    by apply (sortBy_order_irrelevant_on lc (allTeams s1)).
Qed.

Lemma hasFailure_content r1 r2 teams trace :
  (∀ trace team, statusOf r1 trace team = statusOf r2 trace team) →
  hasFailure r1 teams trace = hasFailure r2 teams trace.
Proof.
  intros Heq. apply eq_true_iff_eq. rewrite !hasFailure_true.
  by setoid_rewrite Heq.
Qed.

Lemma partitionTraces_content r1 r2 teams traces :
  (∀ trace team, statusOf r1 trace team = statusOf r2 trace team) →
  partitionTraces r1 teams traces = partitionTraces r2 teams traces.
Proof.
  intros Heq. unfold partitionTraces. apply fold_left_pointwise.
  intros acc trace. by rewrite (hasFailure_content r1 r2).
Qed.

(** The traces of a reachable state are read off its statuses. *)
Lemma keys_by_status v s trace :
  reachable v s →
  trace ∈ jsmap_keys (results s) ↔
  ∃ team st, statusOf (results s) trace team = Some st.
Proof.
  intros Hs. split.
  - intros [inner E]%jsmap_keys_get. unfold statusOf. rewrite E.
    eapply inner_nonempty_status, reachable_inner; eauto.
  - intros (team & st & H). by eapply statusOf_Some_keys.
Qed.

Section SameContent.
Context (v : Variant) (s1 s2 : State).
Context (Hs1 : reachable v s1) (Hs2 : reachable v s2).
Context (Hst : ∀ trace team,
            statusOf (results s1) trace team = statusOf (results s2) trace team).
Context (Hteams : ∀ team, team ∈ allTeams s1 ↔ team ∈ allTeams s2).

Lemma allTraces_content : allTraces s1 = allTraces s2.
Proof.
  unfold allTraces. apply sortBy_order_irrelevant; try apply _.
  apply NoDup_Permutation; try by eapply reachable_NoDup_keys.
  intros trace. rewrite !(keys_by_status v) by done. by setoid_rewrite Hst.
Qed.

Lemma teamCounts_content team : teamCounts s1 team = teamCounts s2 team.
Proof.
  unfold teamCounts. rewrite allTraces_content. apply fold_left_pointwise.
  intros acc trace. unfold countStatus. by rewrite Hst.
Qed.

Lemma statusCell_content trace team :
  statusCell (results s1) trace team = statusCell (results s2) trace team.
Proof. unfold statusCell. by rewrite Hst. Qed.

(** The simplified script sorts the teams by code units. *)
Lemma teams_content_simplified :
  sortedTeams lc Simplified s1 = sortedTeams lc Simplified s2.
Proof.
  apply sortedTeams_content_simplified; try done;
    by eapply reachable_NoDup_teams.
Qed.

Lemma interesting_content_simplified :
  interestingTraces lc Simplified s1 = interestingTraces lc Simplified s2.
Proof.
  unfold interestingTraces.
  by rewrite teams_content_simplified, allTraces_content,
    (partitionTraces_content (results s1) (results s2)).
Qed.

Lemma teamRow_content team : teamRow lc s1 team = teamRow lc s2 team.
Proof.
  unfold teamRow. cbn zeta.
  rewrite interesting_content_simplified, teamCounts_content.
  apply fold_left_pointwise. intros row trace. by rewrite statusCell_content.
Qed.

Lemma mdTableSimplified_content :
  mdTableSimplified lc s1 = mdTableSimplified lc s2.
Proof.
  unfold mdTableSimplified. cbn zeta.
  rewrite interesting_content_simplified, teams_content_simplified.
  apply fold_left_pointwise. intros t team. by rewrite teamRow_content.
Qed.

(** [index.ts] sorts them with [localeCompare]. *)
Context (Hord : TotalOrderOn lc (allTeams s1)).

Lemma teams_content_full : sortedTeams lc Full s1 = sortedTeams lc Full s2.
Proof.
  apply sortedTeams_content_full; try done; by eapply reachable_NoDup_teams.
Qed.

Lemma interesting_content_full :
  interestingTraces lc Full s1 = interestingTraces lc Full s2.
Proof.
  unfold interestingTraces.
  by rewrite teams_content_full, allTraces_content,
    (partitionTraces_content (results s1) (results s2)).
Qed.

Lemma statsOf_content team : statsOf lc s1 team = statsOf lc s2 team.
Proof.
  unfold statsOf, teamStats. rewrite teams_content_full. do 2 f_equal.
  apply fold_left_pointwise. intros m t. by rewrite teamCounts_content.
Qed.

Lemma summaryRows_content : summaryRows lc s1 = summaryRows lc s2.
Proof.
  unfold summaryRows. rewrite teams_content_full. apply fold_left_pointwise.
  intros rows team. cbn zeta. by rewrite statsOf_content.
Qed.

Context (Hlinks : ∀ trace, jsmap_get (traceBranchMap s1) trace
                           = jsmap_get (traceBranchMap s2) trace).

Lemma traceRow_content trace : traceRow lc s1 trace = traceRow lc s2 trace.
Proof.
  unfold traceRow, linkify. rewrite teams_content_full, Hlinks.
  apply fold_left_pointwise. intros row team. by rewrite statusCell_content.
Qed.

Lemma mdTableFull_content : mdTableFull lc s1 = mdTableFull lc s2.
Proof.
  unfold mdTableFull. cbn zeta.
  rewrite interesting_content_full, teams_content_full, summaryRows_content.
  apply fold_left_pointwise. intros t trace. by rewrite traceRow_content.
Qed.
End SameContent.
End Content.

(** C8, as the scripts have it.  Take two states of the aggregation whose
    result tables hold the same status for every (trace, team) pair and
    whose team sets have the same members, in whatever order the entries
    were inserted.  The simplified script renders the same table from both.
    So does [index.ts] when, in addition, the trace-to-branch maps agree,
    since the trace links are part of its table, and [localeCompare] is a
    total order on the team names of the run: nothing is asked of it on
    other strings, and no two different team names may compare equal. *)
Theorem table_determined_by_content lc v s1 s2 :
  reachable v s1 → reachable v s2 →
  (∀ trace team,
     statusOf (results s1) trace team = statusOf (results s2) trace team) →
  (∀ team, team ∈ allTeams s1 ↔ team ∈ allTeams s2) →
  (v = Full →
     (∀ trace, jsmap_get (traceBranchMap s1) trace
               = jsmap_get (traceBranchMap s2) trace)
     ∧ TotalOrderOn lc (allTeams s1)) →
  mdTable lc v s1 = mdTable lc v s2.
Proof.
  intros Hs1 Hs2 Hst Hteams Hfull. destruct v; cbn [mdTable].
  - destruct (Hfull eq_refl) as [Hlinks Hord].
    by apply (mdTableFull_content lc Full).
  - by apply (mdTableSimplified_content lc Simplified).
Qed.

(** ** The template updater *)

Section Updater.
Implicit Types (s p : jsstring).
Local Open Scope Z_scope.

Lemma startsWith_true s p : startsWith s p = true ↔ ∃ post, s = p ++ post.
Proof.
  revert s. induction p as [|c p IH]; intros [|d s]; cbn [startsWith].
  - split; [|done]. intros _. by exists [].
  - split; [|done]. intros _. by exists (d :: s).
  - split; [done|]. by intros [post ?].
  - rewrite andb_true_iff, N.eqb_eq, IH. split.
    + intros [-> [post ->]]. by exists post.
    + intros [post [= -> ->]]. eauto.
Qed.

(** [indexOf] finds the first occurrence, and answers [-1] exactly when
    there is none. *)
Lemma indexFrom_spec i s p :
  (indexFrom i s p = -1 ∧ ¬ occursIn p s)
  ∨ ∃ pre post,
      indexFrom i s p = i + Z.of_nat (length pre)
      ∧ s = pre ++ p ++ post
      ∧ ∀ pre' post', s = pre' ++ p ++ post' → (length pre ≤ length pre')%nat.
Proof.
  revert i. induction s as [|c s IH]; intros i; cbn [indexFrom].
  - destruct (startsWith [] p) eqn:E.
    + right. apply startsWith_true in E as [post E]. exists [], post.
      split_and!; [cbn; lia|done|intros; cbn; lia].
    + left. split; [done|]. intros (pre & post & E').
      destruct pre; [|done]. cbn in E'.
      assert (startsWith [] p = true); [|congruence].
      apply startsWith_true. eauto.
  - destruct (startsWith (c :: s) p) eqn:E.
    + right. apply startsWith_true in E as [post E]. exists [], post.
      split_and!; [cbn; lia|done|intros; cbn; lia].
    + assert (∀ pre post, c :: s = pre ++ p ++ post →
                ∃ pre', pre = c :: pre' ∧ s = pre' ++ p ++ post) as Hocc.
      { intros [|d pre] post E'.
        - assert (startsWith (c :: s) p = true); [|congruence].
          apply startsWith_true. eauto.
        - injection E' as -> ->. eauto. }
      destruct (IH (i + 1)) as [[-> Hno]|(pre & post & -> & -> & Hfirst)].
      * left. split; [done|]. intros (pre & post & E').
        apply Hocc in E' as (pre' & -> & E'). apply Hno. by exists pre', post.
      * right. exists (c :: pre), post. split_and!; [cbn; lia|done|].
        intros pre' post' E'. apply Hocc in E' as (pre'' & -> & E').
        cbn. apply Hfirst in E'. lia.
Qed.

Lemma indexOf_absent s p : indexOf s p = -1 ↔ ¬ occursIn p s.
Proof.
  unfold indexOf.
  destruct (indexFrom_spec 0 s p) as [[-> Hno]|(pre & post & -> & Hk & _)].
  - done.
  - split; [lia|]. intros Hno. destruct Hno. by exists pre, post.
Qed.

Lemma indexOf_found s p :
  indexOf s p ≠ -1 →
  ∃ pre post,
    indexOf s p = Z.of_nat (length pre)
    ∧ s = pre ++ p ++ post
    ∧ ∀ pre' post', s = pre' ++ p ++ post' → (length pre ≤ length pre')%nat.
Proof.
  unfold indexOf.
  destruct (indexFrom_spec 0 s p) as [[-> Hno]|(pre & post & -> & Hk)].
  - done.
  - intros _. exists pre, post. split; [lia|done].
Qed.

(** When the first start marker ends before the first end marker begins,
    the new content keeps everything up to the end of the start marker
    and everything from the end marker on, and has the table, framed by
    line breaks, between them. *)
Lemma newContent_ordered readmeContent mdTable :
  indexOf readmeContent startMarker ≠ -1 →
  indexOf readmeContent startMarker + Z.of_nat (length startMarker)
    ≤ indexOf readmeContent endMarker →
  ∃ pre mid post,
    readmeContent = pre ++ startMarker ++ mid ++ endMarker ++ post
    ∧ newContent readmeContent mdTable
      = pre ++ startMarker ++ (nl ++ nl ++ mdTable ++ nl) ++ endMarker ++ post.
Proof.
  intros Hs Hle. unfold newContent, substring2, substring1.
  destruct (indexOf_found _ _ Hs) as (pre & post0 & Es & Hks & _).
  assert (indexOf readmeContent endMarker ≠ -1) as He by lia.
  destruct (indexOf_found _ _ He) as (pre1 & post & Ee & Hke & _).
  rewrite Es, Ee in *.
  replace (Z.to_nat (Z.of_nat (length pre) + Z.of_nat (length startMarker))
           - Z.to_nat 0)%nat
    with (length (pre ++ startMarker)) by (rewrite length_app; lia).
  rewrite Nat2Z.id. cbn [drop Z.to_nat].
  assert (take (length (pre ++ startMarker)) readmeContent = pre ++ startMarker)
    as Hpre.
  { rewrite Hks at 1. by rewrite app_assoc, take_app_length. }
  assert (drop (length pre1) readmeContent = endMarker ++ post) as Hpost.
  { rewrite Hke at 1. by rewrite drop_app_length. }
  assert (length (pre ++ startMarker) ≤ length pre1)%nat as Hn
    by (rewrite length_app; lia).
  set (n := length (pre ++ startMarker)) in *.
  exists pre, (take (length pre1 - n) (drop n readmeContent)), post.
  split.
  - rewrite <-(take_drop n readmeContent) at 1. rewrite Hpre, <-app_assoc.
    do 2 f_equal.
    rewrite <-(take_drop (length pre1 - n) (drop n readmeContent)) at 1.
    f_equal. rewrite drop_drop.
    replace (n + (length pre1 - n))%nat with (length pre1) by lia. done.
  - change (drop (Z.to_nat 0) readmeContent) with readmeContent.
    rewrite Hpre, Hpost. by rewrite <-!app_assoc.
Qed.
End Updater.

(** C5.  When the start marker or the end marker does not occur in the
    README, the run writes nothing to it, so its content is what it was,
    and the updater reports the missing markers on the error console. *)
Theorem markers_absent_readme_untouched lc v README_FILE branches readmeContent :
  ¬ occursIn startMarker readmeContent ∨ ¬ occursIn endMarker readmeContent →
  let u := main lc v README_FILE branches (Some readmeContent) in
  written u = None
  ∧ readmeAfter (Some readmeContent) u = Some readmeContent
  ∧ console u = [ConsoleError (js "Markers not found in " ++ README_FILE
                               ++ js ". Table not updated.")].
Proof.
  intros Habs. unfold main, updateReadme, readmeAfter.
  assert (negb (indexOf readmeContent startMarker =? -1)%Z
          && negb (indexOf readmeContent endMarker =? -1)%Z = false) as ->.
  { apply andb_false_iff.
    destruct Habs as [H|H]; apply indexOf_absent in H; rewrite H; auto. }
  done.
Qed.

(** C4, at a README whose markers are in the wrong order.  Both markers are
    found, the end marker at index 0 and the start marker after it, and the
    updater writes the old document up to the end of its start marker, the
    table, and then the whole old document again from its end marker on:
    the old table is still there, twice, and so is the text around it;
    nothing has been replaced. *)
Theorem reversed_markers_duplicate_readme :
  indexOf exReversedReadme endMarker = 0%Z
  ∧ indexOf exReversedReadme startMarker = 41%Z
  ∧ written (updateReadme (js "README.md") (Some exReversedReadme) (js "TABLE"))
    = Some ((endMarker ++ nl ++ js "old table" ++ nl ++ startMarker)
            ++ nl ++ nl ++ js "TABLE" ++ nl
            ++ (endMarker ++ nl ++ js "old table" ++ nl ++ startMarker ++ nl
                ++ js "## Usage" ++ nl)).
Proof. split_and!; vm_compute; reflexivity. Qed.

(** ** The claims at concrete inputs *)

(** The pattern on some lines: the leftmost occurrence is taken, the white
    space is required, and an underscore belongs to the identifier in
    [index.ts] only. *)
Example lineMatch_first_occurrence :
  lineMatch Full (js "- " ++ glyph Red ++ js "  12 " ++ glyph Green ++ js " 34")
  = Some (Red, js "12").
Proof. reflexivity. Qed.

Example first_occurrence_on_a_line :
  FirstPatternAt Full
    (js "- " ++ glyph Red ++ js "  12 " ++ glyph Green ++ js " 34")
    Red (js "12")
  ∧ ¬ FirstPatternAt Full
        (js "- " ++ glyph Red ++ js "  12 " ++ glyph Green ++ js " 34")
        Green (js "34")
  ∧ ¬ FirstPatternAt Full
        (js "- " ++ glyph Red ++ js "  12 " ++ glyph Green ++ js " 34")
        Red (js "1").
Proof.
  split_and!.
  - by apply lineMatch_leftmost_longest.
  - by intros H%lineMatch_first.
  - by intros H%lineMatch_first.
Qed.

Example lineMatch_underscore_full :
  lineMatch Full (glyph Green ++ js " 1763_0042 ok") = Some (Green, js "1763_0042").
Proof. reflexivity. Qed.

Example lineMatch_underscore_simplified :
  lineMatch Simplified (glyph Green ++ js " 1763_0042 ok") = Some (Green, js "1763").
Proof. reflexivity. Qed.

Example lineMatch_no_space :
  lineMatch Full (glyph Red ++ js "12") = None.
Proof. reflexivity. Qed.

(** The totals count the traces that are not interesting too: on [exB4]
    only trace 200 is interesting, and the passing trace 100 is counted for
    both teams. *)
Example totals_count_boring_traces :
  interestingTraces defaultCompare Full (run Full [exB4]) = [js "200"]
  ∧ teamCounts (run Full [exB4]) typeberry = {| red := 0; green := 1; unknown := 1 |}
  ∧ teamCounts (run Full [exB4]) (js "alice") = {| red := 1; green := 1; unknown := 0 |}.
Proof. by split_and!. Qed.

(** The end-to-end example: trace 100 fails for bob, trace 200 fails for
    alice, so both are interesting. *)
Example end_to_end_interesting :
  interestingTraces defaultCompare Full (run Full [exB1; exB2])
  = [js "100"; js "200"].
Proof. reflexivity. Qed.

(** C7 as stated does not hold of the simplified script: with the teams
    [typeberry] and [alice] discovered, [alice] is rendered first. *)
Lemma simplified_has_no_priority_team :
  typeberry ∈ allTeams (run Simplified [exB4])
  ∧ sortedTeams defaultCompare Simplified (run Simplified [exB4])
    = [js "alice"; typeberry]
  ∧ ¬ ∃ rest, sortedTeams defaultCompare Simplified (run Simplified [exB4])
              = typeberry :: rest.
Proof.
  split_and!.
  - vm_compute. left.
  - vm_compute. reflexivity.
  - intros [rest H]. vm_compute in H. discriminate H.
Qed.

(** C8 as stated does not hold of [index.ts], for two reasons.  Two
    working copies with the same extracted facts, hence the same result
    table and team set, render different tables when only one of them has
    the trace directories.  And two runs whose result tables, team sets and
    trace-to-branch maps have the same content render different tables
    when [localeCompare], a comparator that compares any two strings and is
    transitive, gives [0] for two team names: the sort then keeps them in
    the order of insertion. *)
Lemma full_table_depends_on_links_and_ties :
  (allExtracted Full [exB1] = allExtracted Full [exB1dirs]
   ∧ results (run Full [exB1]) = results (run Full [exB1dirs])
   ∧ allTeams (run Full [exB1]) = allTeams (run Full [exB1dirs])
   ∧ mdTable defaultCompare Full (run Full [exB1])
     ≠ mdTable defaultCompare Full (run Full [exB1dirs]))
  ∧ ((∀ trace team,
        statusOf (results (run Full [exB6; exB7])) trace team
        = statusOf (results (run Full [exB7; exB6])) trace team)
     ∧ (∀ team, team ∈ allTeams (run Full [exB6; exB7])
                ↔ team ∈ allTeams (run Full [exB7; exB6]))
     ∧ traceBranchMap (run Full [exB6; exB7])
       = traceBranchMap (run Full [exB7; exB6])
     ∧ Total (inOrder canonCompare) ∧ Transitive (inOrder canonCompare)
     ∧ eComposed ∈ allTeams (run Full [exB6; exB7])
     ∧ eDecomposed ∈ allTeams (run Full [exB6; exB7])
     ∧ eComposed ≠ eDecomposed
     ∧ canonCompare eComposed eDecomposed = 0%Z
     ∧ canonCompare eDecomposed eComposed = 0%Z
     ∧ mdTable canonCompare Full (run Full [exB6; exB7])
       ≠ mdTable canonCompare Full (run Full [exB7; exB6])).
Proof.
  assert (∀ a b : jsstring, a ≠ b ↔ (a = b → False)) as Hne by done.
  split; split_and!; try reflexivity; try apply _;
    try (apply Hne; intros H; vm_compute in H; discriminate H).
  - intros trace team. unfold statusOf.
    let r1 := eval vm_compute in (results (run Full [exB6; exB7])) in
    change (results (run Full [exB6; exB7])) with r1.
    let r2 := eval vm_compute in (results (run Full [exB7; exB6])) in
    change (results (run Full [exB7; exB6])) with r2.
    repeat (cbn [jsmap_get]; case_decide; subst; try done).
  - intros team.
    let t1 := eval vm_compute in (allTeams (run Full [exB6; exB7])) in
    change (allTeams (run Full [exB6; exB7])) with t1.
    let t2 := eval vm_compute in (allTeams (run Full [exB7; exB6])) in
    change (allTeams (run Full [exB7; exB6])) with t2.
    rewrite !elem_of_cons. tauto.
  - vm_compute. left.
  - vm_compute. right; left.
Qed.

Lemma last_write_wins_witness :
  (js "alice", js "100", Green) ∈ extracted Full exB1
  ∧ lastStatus (extracted Full exB3) (js "100") (js "alice") = Some Red
  ∧ (∀ b st, b ∈ [exB2] → (js "alice", js "100", st) ∉ extracted Full b)
  ∧ statusOf (results (run Full ([] ++ exB1 :: [] ++ exB3 :: [exB2])))
      (js "100") (js "alice") = Some Red.
Proof.
  assert ((js "alice", js "100", Green) ∈ extracted Full exB1) as H1
    by (vm_compute; left).
  assert (lastStatus (extracted Full exB3) (js "100") (js "alice") = Some Red)
    as H2 by reflexivity.
  assert (∀ b st, b ∈ [exB2] → (js "alice", js "100", st) ∉ extracted Full b)
    as H3.
  { intros b st ->%list_elem_of_singleton Hin. vm_compute in Hin.
    apply list_elem_of_singleton in Hin. discriminate Hin. }
  split_and!; [exact H1|exact H2|exact H3|].
  exact (last_write_wins Full [] exB1 [] exB3 [exB2] (js "100") (js "alice")
           Green Red H1 H2 H3).
Defined.

Lemma markers_absent_readme_untouched_witness :
  (¬ occursIn startMarker exPlainReadme ∨ ¬ occursIn endMarker exPlainReadme)
  ∧ written (main defaultCompare Full (js "README.md") [exB1; exB2]
               (Some exPlainReadme)) = None
  ∧ readmeAfter (Some exPlainReadme)
      (main defaultCompare Full (js "README.md") [exB1; exB2]
         (Some exPlainReadme)) = Some exPlainReadme.
Proof.
  assert (¬ occursIn startMarker exPlainReadme ∨ ¬ occursIn endMarker exPlainReadme)
    as H by (left; apply indexOf_absent; reflexivity).
  split; [exact H|].
  pose proof (markers_absent_readme_untouched defaultCompare Full
                (js "README.md") [exB1; exB2] exPlainReadme H) as (Hw & Ha & _).
  split; [exact Hw|exact Ha].
Defined.

Lemma team_order_witness :
  typeberry ∈ allTeams (run Full [exB4])
  ∧ ∃ rest, sortedTeams defaultCompare Full (run Full [exB4]) = typeberry :: rest
            ∧ (typeberry ∉ rest)
            ∧ StronglySorted (inOrder defaultCompare) rest.
Proof.
  assert (typeberry ∈ allTeams (run Full [exB4])) as Hin by (vm_compute; left).
  split; [exact Hin|].
  exact (proj1 (team_order defaultCompare Full [exB4]) Hin).
Defined.

Lemma table_determined_by_content_witness :
  reachable Full (run Full [exB1; exB2])
  ∧ reachable Full (run Full [exB2; exB1])
  ∧ allTeams (run Full [exB1; exB2]) ≠ allTeams (run Full [exB2; exB1])
  ∧ TotalOrderOn canonCompare (allTeams (run Full [exB1; exB2]))
  ∧ mdTable canonCompare Full (run Full [exB1; exB2])
    = mdTable canonCompare Full (run Full [exB2; exB1]).
Proof.
  assert (TotalOrderOn canonCompare (allTeams (run Full [exB1; exB2])))
    as Hord.
  { split_and!.
    - intros a b _ _. apply (total (inOrder canonCompare)).
    - intros a b c _ _ _. apply (transitivity (R:=inOrder canonCompare)).
    - let t1 := eval vm_compute in (allTeams (run Full [exB1; exB2])) in
      change (allTeams (run Full [exB1; exB2])) with t1.
      intros a b Ha Hb. rewrite !elem_of_cons, elem_of_nil in Ha, Hb.
      destruct Ha as [->|[->|[]]], Hb as [->|[->|[]]]; try reflexivity;
        unfold inOrder; vm_compute; intros H1 H2; exfalso;
        ((by apply H1) || (by apply H2)). }
  split_and!;
    [apply run_reachable|apply run_reachable|by vm_compute|exact Hord|].
  apply (table_determined_by_content canonCompare Full);
    [apply run_reachable|apply run_reachable| | |].
  - intros trace team. unfold statusOf.
    let r1 := eval vm_compute in (results (run Full [exB1; exB2])) in
    change (results (run Full [exB1; exB2])) with r1.
    let r2 := eval vm_compute in (results (run Full [exB2; exB1])) in
    change (results (run Full [exB2; exB1])) with r2.
    repeat (cbn [jsmap_get]; case_decide; subst; try done).
  - intros team.
    let t1 := eval vm_compute in (allTeams (run Full [exB1; exB2])) in
    change (allTeams (run Full [exB1; exB2])) with t1.
    let t2 := eval vm_compute in (allTeams (run Full [exB2; exB1])) in
    change (allTeams (run Full [exB2; exB1])) with t2.
    rewrite !elem_of_cons. tauto.
  - intros _. split; [|exact Hord]. intros trace. reflexivity.
Defined.

(** * Further properties *)

(** ** Lines *)

Lemma splitLines_nonempty s : splitLines s ≠ [].
Proof.
  destruct s as [|c s]; cbn [splitLines]; [done|].
  destruct (c =? 10); [done|]. by destruct (splitLines s).
Qed.

Lemma join_cons sep x l : l ≠ [] → join sep (x :: l) = x ++ sep ++ join sep l.
Proof. by destruct l. Qed.

Lemma join_cons_head sep c x l : join sep ((c :: x) :: l) = c :: join sep (x :: l).
Proof. by destruct l. Qed.

(** X1.  Splitting a text at its line feeds loses nothing: joining the lines
    with line feeds gives the text back, no line contains a line feed, and
    there is one line more than there are line feeds. *)
Theorem splitLines_join s :
  join nl (splitLines s) = s
  ∧ Forall (λ line, 10 ∉ line) (splitLines s)
  ∧ length (splitLines s) = S (length (List.filter (λ c, c =? 10) s)).
Proof.
  induction s as [|c s (IHj & IHf & IHl)]; cbn [splitLines List.filter].
  - split_and!; [done| |done]. repeat constructor. apply not_elem_of_nil.
  - destruct (N.eqb_spec c 10) as [->|Hne].
    + split_and!.
      * rewrite join_cons by apply splitLines_nonempty. by rewrite IHj.
      * constructor; [apply not_elem_of_nil|done].
      * cbn [length]. by rewrite IHl.
    + destruct (splitLines s) as [|l ls] eqn:E; [by apply splitLines_nonempty in E|].
      split_and!.
      * by rewrite join_cons_head, IHj.
      * apply Forall_cons in IHf as [Hl Hls]. constructor; [|done].
        rewrite not_elem_of_cons. by split.
      * done.
Qed.

(** ** Trace identifiers *)

Lemma extracted_lineMatch v b team trace st :
  (team, trace, st) ∈ extracted v b → ∃ line, lineMatch v line = Some (st, trace).
Proof.
  unfold extracted. destruct (checkoutOk b); [|by intros ?%elem_of_nil].
  destruct (summariesDir b) as [entries|]; [|by intros ?%elem_of_nil].
  induction (List.filter isSummaryFile entries) as [|f fs IH]; cbn [filesFacts];
    [by intros ?%elem_of_nil|].
  unfold fileFacts. destruct (fileContent f) as [content|];
    [|by intros ?%elem_of_nil].
  intros [Hin|Hin]%elem_of_app; [|by apply IH].
  apply list_elem_of_omap in Hin as (line & _ & Hline).
  exists line. unfold lineFact in Hline.
  destruct (lineMatch v line) as [[status traceId]|]; [|done].
  by injection Hline as _ -> ->.
Qed.

(** X2.  Every trace identifier of the table is a non-empty string of
    digits, with underscores in [index.ts] only; in particular it holds
    neither a vertical bar nor a line feed, which would break a row. *)
Theorem trace_ids_wellformed v branches :
  Forall (λ trace, trace ≠ []
                   ∧ Forall (λ c, isIdChar v c = true) trace
                   ∧ (0x7C ∉ trace) ∧ (10 ∉ trace))
    (allTraces (run v branches)).
Proof.
  apply Forall_forall. intros trace (team & st & Hin)%allTraces_seen.
  apply allExtracted_elem in Hin as (b & _ & Hin).
  apply extracted_lineMatch in Hin as [line Hline].
  apply lineMatch_sound in Hline as (pre & ws & post & _ & _ & _ & Hne & Hid).
  split_and!; try done;
    intros Hc; rewrite Forall_forall in Hid; apply Hid in Hc; by destruct v.
Qed.

(** ** The two patterns *)

Lemma takeWhile_agree (p q : N → bool) l :
  Forall (λ c, p c = q c) l → takeWhile p l = takeWhile q l.
Proof.
  induction 1 as [|c l Hc _ IH]; cbn [takeWhile]; [done|].
  rewrite Hc. by rewrite IH.
Qed.

Lemma dropWhile_Forall (P : N → Prop) p l :
  Forall P l → Forall P (dropWhile p l).
Proof.
  induction 1 as [|c l Hc Hl IH]; cbn [dropWhile]; [constructor|].
  destruct (p c); [done|by constructor].
Qed.

Lemma isIdChar_agree c : c ≠ 0x5F → isIdChar Full c = isIdChar Simplified c.
Proof.
  intros Hc. cbn [isIdChar]. destruct (N.eqb_spec c 0x5F); [done|].
  by rewrite orb_false_r.
Qed.

Lemma matchAt_agree l :
  Forall (λ c, c ≠ 0x5F) l → matchAt Full l = matchAt Simplified l.
Proof.
  intros Hl. unfold matchAt. destruct (glyphAt l) as [[st r]|] eqn:Hg; [|done].
  apply glyphAt_Some in Hg. rewrite Hg in Hl.
  apply Forall_app in Hl as [_ Hr].
  rewrite (takeWhile_agree (isIdChar Full) (isIdChar Simplified)); [done|].
  apply dropWhile_Forall. eapply Forall_impl; [exact Hr|].
  intros c Hc. by apply isIdChar_agree.
Qed.

(** X3.  On a line without an underscore the pattern of [index.ts] and the
    pattern of the simplified script capture the same status and the same
    identifier, or both fail. *)
Theorem patterns_agree_without_underscore line :
  0x5F ∉ line → lineMatch Full line = lineMatch Simplified line.
Proof.
  intros Hno.
  assert (Forall (λ c, c ≠ 0x5F) line) as Hl.
  { apply Forall_forall. by intros c Hc ->. }
  clear Hno. induction Hl as [|c line Hc Hl IH]; [done|].
  cbn [lineMatch]. rewrite matchAt_agree by by constructor. by rewrite IH.
Qed.

Lemma patterns_agree_without_underscore_witness :
  (0x5F ∉ glyph Red ++ js " 100")
  ∧ lineMatch Full (glyph Red ++ js " 100")
    = lineMatch Simplified (glyph Red ++ js " 100").
Proof.
  assert (0x5F ∉ (glyph Red ++ js " 100")) as H.
  { intros Hin. vm_compute in Hin. repeat (apply elem_of_cons in Hin as [Hin|Hin]; [done|]).
    by apply elem_of_nil in Hin. }
  split; [exact H|].
  exact (patterns_agree_without_underscore (glyph Red ++ js " 100") H).
Defined.

(** ** The result table and the facts *)

Lemma lastStatus_cons f facts trace team :
  lastStatus (f :: facts) trace team =
  match lastStatus facts trace team with
  | Some st => Some st
  | None => if decide (f.1.2 = trace ∧ f.1.1 = team) then Some f.2 else None
  end.
Proof. unfold lastStatus at 1. cbn [fold_left]. apply lastStatus_from. Qed.

Lemma lastStatus_present facts trace team st :
  (team, trace, st) ∈ facts → is_Some (lastStatus facts trace team).
Proof.
  induction facts as [|f facts IH]; [by intros ?%elem_of_nil|].
  rewrite lastStatus_cons. intros [<-|Hin]%elem_of_cons.
  - destruct (lastStatus facts trace team); [eauto|].
    cbn. rewrite decide_True by done. eauto.
  - destruct (IH Hin) as [st' ->]. eauto.
Qed.

(** X4.  At the end of a run the cell of every (trace, team) pair holds the
    status of the last extracted fact about the pair, in processing order;
    it is empty exactly when no fact about the pair was extracted. *)
Theorem final_status_is_last_fact v branches trace team :
  statusOf (results (run v branches)) trace team
  = lastStatus (allExtracted v branches) trace team
  ∧ (statusOf (results (run v branches)) trace team = None ↔
     ∀ st, (team, trace, st) ∉ allExtracted v branches).
Proof.
  assert (statusOf (results (run v branches)) trace team
          = lastStatus (allExtracted v branches) trace team) as E.
  { rewrite run_results, statusOf_fold_facts.
    by destruct (lastStatus _ trace team). }
  split; [done|]. rewrite E. split.
  - intros Hnone st Hin. apply lastStatus_present in Hin as [st' Hst].
    congruence.
  - apply lastStatus_absent.
Qed.

(** X5.  A team for which no fact was extracted, such as the team of an
    empty or unreadable summary file, is counted as unknown for every trace
    and as failing or passing for none. *)
Theorem team_without_facts_all_unknown v branches team :
  (∀ trace st, (team, trace, st) ∉ allExtracted v branches) →
  teamCounts (run v branches) team
  = {| red := 0; green := 0; unknown := length (allTraces (run v branches)) |}.
Proof.
  intros Hno.
  assert (∀ trace, statusOf (results (run v branches)) trace team = None) as Hs.
  { intros trace. rewrite run_results, statusOf_fold_facts.
    by rewrite lastStatus_absent by apply Hno. }
  rewrite teamCounts_spec. unfold countTraces.
  generalize (allTraces (run v branches)). intros traces.
  induction traces as [|trace traces IH]; [done|].
  cbn [List.filter length]. rewrite Hs.
  rewrite !bool_decide_eq_false_2 by done. rewrite bool_decide_eq_true_2 by done.
  cbn [length]. by injection IH as -> -> ->.
Qed.

(** ** The teams *)

Lemma processLines_allTeams v b teamName lines s :
  allTeams (fold_left (λ st line, processLine v b teamName line st) lines s)
  = allTeams s.
Proof.
  revert s. induction lines as [|line lines IH]; intros s; [done|].
  cbn [fold_left]. by rewrite IH, processLine_allTeams.
Qed.

Lemma processFiles_allTeams v b files s team :
  team ∈ allTeams (processFiles v b files s) ↔
  team ∈ allTeams s ∨ ∃ f, f ∈ reachedFiles files ∧ team = teamNameOf (fileName f).
Proof.
  revert s. induction files as [|f files IH]; intros s;
    cbn [processFiles reachedFiles].
  - split; [by left|]. by intros [?|(? & ?%elem_of_nil & _)].
  - unfold processFile. destruct (fileContent f) as [content|].
    + rewrite IH, processLines_allTeams. cbn [addTeam allTeams].
      rewrite jsset_add_elem. split.
      * intros [[->|?]|(g & ? & ?)]; [right|by left|right].
        -- exists f. split; [left|done].
        -- exists g. split; [by right|done].
      * intros [?|(g & [->|?]%elem_of_cons & ->)];
          [by left; right|by left; left|right; eauto].
    + cbn [addTeam allTeams]. rewrite jsset_add_elem. split.
      * intros [->|?]; [right|by left]. exists f. split; [left|done].
      * intros [?|(g & ->%list_elem_of_singleton & ->)]; [by right|by left].
Qed.

Lemma processBranch_allTeams v b s team :
  team ∈ allTeams (processBranch v b s) ↔
  team ∈ allTeams s ∨ ∃ f, f ∈ summaryFiles b ∧ team = teamNameOf (fileName f).
Proof.
  unfold processBranch, summaryFiles.
  destruct (checkoutOk b);
    [|split; [by left|by intros [?|(? & ?%elem_of_nil & _)]]].
  destruct (summariesDir b);
    [|split; [by left|by intros [?|(? & ?%elem_of_nil & _)]]].
  apply processFiles_allTeams.
Qed.

(** X6.  The teams of a run are the teams named by the summary files the
    loops get to: on every branch that can be checked out, the files named
    [summary_....txt] up to and including the first one that cannot be
    read. *)
Theorem teams_of_run v branches team :
  team ∈ allTeams (run v branches) ↔
  ∃ b f, b ∈ branches ∧ f ∈ summaryFiles b ∧ team = teamNameOf (fileName f).
Proof.
  unfold run.
  assert (∀ s, team ∈ allTeams (fold_left (λ s b, processBranch v b s) branches s) ↔
            team ∈ allTeams s
            ∨ ∃ b f, b ∈ branches ∧ f ∈ summaryFiles b
                     ∧ team = teamNameOf (fileName f)) as H.
  { induction branches as [|b bs IH]; intros s; cbn [fold_left].
    - split; [by left|]. by intros [?|(? & ? & ?%elem_of_nil & _)].
    - rewrite IH, processBranch_allTeams. split.
      + intros [[?|(f & ? & ?)]|(b' & f & ? & ? & ?)]; [by left|right..].
        * exists b, f. split_and!; [left|done..].
        * exists b', f. split_and!; [by right|done..].
      + intros [?|(b' & f & [->|?]%elem_of_cons & ? & ?)];
          [by left; left|left; right; eauto|right; eauto]. }
  rewrite H. split; [|by right]. by intros [?%elem_of_nil|?].
Qed.

(** X7.  A summary file that cannot be read ends its branch: its own team
    has been added by then, and the files listed after it add neither a
    team nor a status. *)
Theorem unreadable_file_ends_branch v b pre f rest s :
  Forall (λ g, is_Some (fileContent g)) pre →
  fileContent f = None →
  processFiles v b (pre ++ f :: rest) s
  = addTeam (teamNameOf (fileName f)) (processFiles v b pre s).
Proof.
  intros Hpre Hf. revert s.
  induction Hpre as [|g pre [content Hg] _ IH]; intros s.
  - cbn [app processFiles]. unfold processFile. by rewrite Hf.
  - cbn [app processFiles]. unfold processFile. rewrite Hg. apply IH.
Qed.

Lemma team_without_facts_all_unknown_witness :
  (∀ trace st, (js "carol", trace, st) ∉ allExtracted Full [exB5])
  ∧ teamCounts (run Full [exB5]) (js "carol")
    = {| red := 0; green := 0; unknown := 2 |}.
Proof.
  assert (∀ trace st, (js "carol", trace, st) ∉ allExtracted Full [exB5]) as H.
  { intros trace st Hin. vm_compute in Hin.
    repeat (apply elem_of_cons in Hin as [Hin|Hin]; [discriminate Hin|]).
    by apply elem_of_nil in Hin. }
  split; [exact H|].
  exact (team_without_facts_all_unknown Full [exB5] (js "carol") H).
Defined.

Lemma unreadable_file_ends_branch_witness :
  Forall (λ g, is_Some (fileContent g)) [exAlice]
  ∧ fileContent exUnreadable = None
  ∧ processFiles Full exB5 ([exAlice] ++ exUnreadable :: [exBob]) initialState
    = addTeam (js "carol") (processFiles Full exB5 [exAlice] initialState).
Proof.
  assert (Forall (λ g, is_Some (fileContent g)) [exAlice]) as H
    by (repeat constructor; eexists; reflexivity).
  split_and!; [exact H|reflexivity|].
  exact (unreadable_file_ends_branch Full exB5 [exAlice] exUnreadable [exBob]
           initialState H eq_refl).
Defined.

(** ** The trace links *)

Lemma recordBranch_get b traceId m trace :
  jsmap_get (recordBranch b traceId m) trace =
  match jsmap_get m trace with
  | Some n => Some n
  | None =>
      if decide (trace = traceId) then
        if traceDirExists b traceId then Some (branchName b) else None
      else None
  end.
Proof.
  unfold recordBranch, jsmap_has.
  destruct (jsmap_get m traceId) as [n0|] eqn:E.
  - destruct (jsmap_get m trace) eqn:E'; [done|].
    rewrite decide_False; [done|]. intros ->. congruence.
  - destruct (traceDirExists b traceId).
    + destruct (decide (trace = traceId)) as [->|Hne].
      * by rewrite jsmap_get_set_eq, E.
      * rewrite jsmap_get_set_ne by done. by destruct (jsmap_get m trace).
    + destruct (decide (trace = traceId)) as [->|Hne].
      * by rewrite E.
      * by destruct (jsmap_get m trace).
Qed.

Lemma processLine_links b teamName line s :
  traceBranchMap (processLine Full b teamName line s) =
  match lineFact Full teamName line with
  | Some f => recordBranch b f.1.2 (traceBranchMap s)
  | None => traceBranchMap s
  end.
Proof.
  unfold processLine, lineFact. by destruct (lineMatch Full line) as [[]|].
Qed.

Lemma processLines_links b teamName lines s :
  traceBranchMap
    (fold_left (λ st line, processLine Full b teamName line st) lines s)
  = fold_left (λ m f, recordBranch b f.1.2 m)
      (omap (lineFact Full teamName) lines) (traceBranchMap s).
Proof.
  revert s. induction lines as [|line lines IH]; intros s; simpl; [done|].
  rewrite IH, processLine_links.
  by destruct (lineFact Full teamName line).
Qed.

Lemma processFiles_links b files s :
  traceBranchMap (processFiles Full b files s)
  = fold_left (λ m f, recordBranch b f.1.2 m) (filesFacts Full files)
      (traceBranchMap s).
Proof.
  revert s. induction files as [|f files IH]; intros s;
    cbn [processFiles filesFacts]; [done|].
  unfold processFile, fileFacts. destruct (fileContent f); [|done].
  by rewrite IH, processLines_links, fold_left_app.
Qed.

(** The trace links a branch adds are read off its extracted facts. *)
Lemma processBranch_links b s :
  traceBranchMap (processBranch Full b s)
  = fold_left (λ m f, recordBranch b f.1.2 m) (extracted Full b)
      (traceBranchMap s).
Proof.
  unfold processBranch, extracted. destruct (checkoutOk b); [|done].
  destruct (summariesDir b); [|done]. apply processFiles_links.
Qed.

Lemma links_fold_kept b (facts : list Fact) m trace n :
  jsmap_get m trace = Some n →
  jsmap_get (fold_left (λ m f, recordBranch b f.1.2 m) facts m) trace = Some n.
Proof.
  revert m. induction facts as [|f facts IH]; intros m Hm; [done|].
  cbn [fold_left]. apply IH. by rewrite recordBranch_get, Hm.
Qed.

Lemma links_fold_absent b (facts : list Fact) m trace :
  (traceDirExists b trace = true → ∀ team st, (team, trace, st) ∉ facts) →
  jsmap_get (fold_left (λ m f, recordBranch b f.1.2 m) facts m) trace
  = jsmap_get m trace.
Proof.
  revert m. induction facts as [|[[tm tr] st] facts IH]; intros m Hno; [done|].
  cbn [fold_left fst snd]. rewrite IH.
  - rewrite recordBranch_get. destruct (jsmap_get m trace); [done|].
    case_decide as Hd; [|done]. subst tr.
    destruct (traceDirExists b trace) eqn:E; [|done].
    destruct (Hno eq_refl tm st). left.
  - intros Hdir team st' Hin. apply (Hno Hdir team st'). by right.
Qed.

Lemma links_fold_found b (facts : list Fact) m trace team st :
  jsmap_get m trace = None → traceDirExists b trace = true →
  (team, trace, st) ∈ facts →
  jsmap_get (fold_left (λ m f, recordBranch b f.1.2 m) facts m) trace
  = Some (branchName b).
Proof.
  revert m. induction facts as [|f facts IH]; intros m Hm Hdir Hin;
    [by apply elem_of_nil in Hin|].
  cbn [fold_left]. apply elem_of_cons in Hin as [<-|Hin].
  - apply links_fold_kept. cbn [fst snd].
    by rewrite recordBranch_get, Hm, decide_True, Hdir.
  - destruct (jsmap_get (recordBranch b f.1.2 m) trace) as [n|] eqn:E.
    + rewrite (links_fold_kept _ _ _ _ _ E).
      rewrite recordBranch_get, Hm in E. case_decide; [|done].
      subst. by rewrite Hdir in E.
    + by apply IH.
Qed.

Lemma run_links_kept bs s trace n :
  jsmap_get (traceBranchMap s) trace = Some n →
  jsmap_get
    (traceBranchMap (fold_left (λ s b, processBranch Full b s) bs s)) trace
  = Some n.
Proof.
  revert s. induction bs as [|b bs IH]; intros s Hs; [done|].
  cbn [fold_left]. apply IH. rewrite processBranch_links.
  by apply links_fold_kept.
Qed.

Lemma run_links_absent bs s trace :
  (∀ b, b ∈ bs → ¬ traceFoundOn b trace) →
  jsmap_get
    (traceBranchMap (fold_left (λ s b, processBranch Full b s) bs s)) trace
  = jsmap_get (traceBranchMap s) trace.
Proof.
  revert s. induction bs as [|b bs IH]; intros s Hno; [done|].
  cbn [fold_left]. rewrite IH by (intros b' Hb'; apply Hno; by right).
  rewrite processBranch_links. apply links_fold_absent.
  intros Hdir team st Hin. apply (Hno b); [left|]. split; eauto.
Qed.

(** X8.  In [index.ts] a trace is linked to the first branch, in listing
    order, on which it is found; no later branch changes the link. *)
Theorem trace_link_is_first_branch l1 b l2 trace :
  (∀ b', b' ∈ l1 → ¬ traceFoundOn b' trace) →
  traceFoundOn b trace →
  jsmap_get (traceBranchMap (run Full (l1 ++ b :: l2))) trace
  = Some (branchName b).
Proof.
  intros Hbefore (Hdir & team & st & Hin). unfold run.
  rewrite fold_left_app. cbn [fold_left]. apply run_links_kept.
  rewrite processBranch_links.
  eapply links_fold_found; [|done..].
  by rewrite run_links_absent.
Qed.

Lemma processBranch_simplified_links b s :
  traceBranchMap (processBranch Simplified b s) = traceBranchMap s.
Proof.
  assert (∀ t lines s,
            traceBranchMap
              (fold_left (λ st line, processLine Simplified b t line st) lines s)
            = traceBranchMap s) as Hlines.
  { intros t lines. induction lines as [|line lines IH]; intros s0; [done|].
    cbn [fold_left]. rewrite IH. unfold processLine.
    by destruct (lineMatch Simplified line) as [[]|]. }
  unfold processBranch. destruct (checkoutOk b); [|done].
  destruct (summariesDir b) as [entries|]; [|done].
  revert s. induction (List.filter isSummaryFile entries) as [|f fs IH];
    intros s; cbn [processFiles]; [done|].
  unfold processFile. destruct (fileContent f); [|done].
  by rewrite IH, Hlines.
Qed.

(** X9.  A trace that is found on no branch has no link and is rendered as
    plain text, and the simplified script records no link at all. *)
Theorem trace_link_absent branches :
  (∀ trace, (∀ b, b ∈ branches → ¬ traceFoundOn b trace) →
            jsmap_get (traceBranchMap (run Full branches)) trace = None
            ∧ linkify (traceBranchMap (run Full branches)) trace = trace)
  ∧ traceBranchMap (run Simplified branches) = [].
Proof.
  split.
  - intros trace Hno.
    assert (jsmap_get (traceBranchMap (run Full branches)) trace = None) as E
      by by (unfold run; rewrite run_links_absent).
    split; [done|]. unfold linkify. by rewrite E.
  - unfold run. generalize (eq_refl : traceBranchMap initialState = []).
    generalize initialState.
    induction branches as [|b bs IH]; intros s Hs; [done|].
    cbn [fold_left]. apply IH. by rewrite processBranch_simplified_links.
Qed.

Lemma trace_link_is_first_branch_witness :
  (∀ b', b' ∈ [exB1] → ¬ traceFoundOn b' (js "100"))
  ∧ traceFoundOn exB5 (js "100")
  ∧ jsmap_get (traceBranchMap (run Full ([exB1] ++ exB5 :: [exB1dirs])))
      (js "100") = Some (js "b5").
Proof.
  assert (∀ b', b' ∈ [exB1] → ¬ traceFoundOn b' (js "100")) as H1.
  { intros b' ->%list_elem_of_singleton [Hdir _]. discriminate Hdir. }
  assert (traceFoundOn exB5 (js "100")) as H2.
  { split; [reflexivity|]. exists (js "alice"), Green. vm_compute. left. }
  split_and!; [exact H1|exact H2|].
  exact (trace_link_is_first_branch [exB1] exB5 [exB1dirs] (js "100") H1 H2).
Defined.

(** ** The rows of the table *)

Lemma defaultCompare_zero a b : defaultCompare a b = 0%Z → a = b.
Proof.
  revert b. induction a as [|c a IH]; intros [|d b]; cbn [defaultCompare];
    try done.
  destruct (N.ltb_spec c d); [done|]. destruct (N.ltb_spec d c); [done|].
  intros Hz. assert (c = d) as -> by lia. f_equal. by apply IH.
Qed.

Lemma StronglySorted_sublist {A} (R : relation A) (l1 l2 : list A) :
  l1 `sublist_of` l2 → StronglySorted R l2 → StronglySorted R l1.
Proof.
  induction 1 as [|x l1 l2 Hsub IH|x l1 l2 Hsub IH]; [done|..].
  - intros [Hx Hl2]%StronglySorted_cons. apply StronglySorted_cons.
    split; [|by apply IH].
    apply Forall_forall. intros y Hy. rewrite Forall_forall in Hx.
    apply Hx. by eapply sublist_subseteq.
  - intros [_ Hl2]%StronglySorted_cons. by apply IH.
Qed.

Lemma StronglySorted_strict (l : list jsstring) :
  NoDup l → StronglySorted (inOrder defaultCompare) l →
  StronglySorted (λ a b, (defaultCompare a b < 0)%Z) l.
Proof.
  induction l as [|x l IH]; [constructor|].
  intros [Hx Hl]%NoDup_cons [Hall Hs]%StronglySorted_cons.
  apply StronglySorted_cons. split; [|by apply IH].
  apply Forall_forall. intros y Hy. rewrite Forall_forall in Hall.
  specialize (Hall y Hy). unfold inOrder in Hall.
  destruct (decide (defaultCompare x y = 0%Z)) as [E|]; [|lia].
  apply defaultCompare_zero in E. by subst.
Qed.

(** X10.  The traces of the table, and so its rows in [index.ts] and its
    trace columns in the simplified script, are in strictly ascending order
    of their code units: every identifier comes before all that follow it,
    and none is repeated. *)
Theorem traces_strictly_ascending lc v branches :
  StronglySorted (λ a b, (defaultCompare a b < 0)%Z) (allTraces (run v branches))
  ∧ StronglySorted (λ a b, (defaultCompare a b < 0)%Z)
      (interestingTraces lc v (run v branches)).
Proof.
  assert (StronglySorted (λ a b, (defaultCompare a b < 0)%Z)
            (allTraces (run v branches))) as H.
  { apply StronglySorted_strict; [apply allTraces_NoDup|].
    apply sortBy_StronglySorted; apply _. }
  split; [done|]. eapply StronglySorted_sublist; [|exact H].
  unfold interestingTraces. rewrite partitionTraces_filter.
  apply List_filter_sublist.
Qed.

(** X11.  Every trace that gets a row in the table of [index.ts], or a
    column in the table of the simplified script, shows the failing glyph
    for at least one of the rendered teams. *)
Theorem interesting_trace_has_red_cell lc v s trace :
  trace ∈ interestingTraces lc v s →
  ∃ team, team ∈ sortedTeams lc v s
          ∧ statusCell (results s) trace team = glyph Red.
Proof.
  unfold interestingTraces. rewrite partitionTraces_filter. cbn [fst].
  intros [_ (team & Hin & Hred)%hasFailure_true]%elem_of_List_filter.
  exists team. split; [done|]. unfold statusCell. by rewrite Hred.
Qed.

Lemma interesting_trace_has_red_cell_witness :
  js "200" ∈ interestingTraces defaultCompare Full (run Full [exB4])
  ∧ ∃ team, team ∈ sortedTeams defaultCompare Full (run Full [exB4])
            ∧ statusCell (results (run Full [exB4])) (js "200") team = glyph Red.
Proof.
  assert (js "200" ∈ interestingTraces defaultCompare Full (run Full [exB4])) as H
    by (vm_compute; left).
  split; [exact H|].
  exact (interesting_trace_has_red_cell defaultCompare Full (run Full [exB4])
           (js "200") H).
Defined.

(** ** More on the template updater *)

(** X12.  The updater calls [writeFileSync] exactly when the README exists,
    can be read, and both markers occur in it, and it passes the new
    content.  An exception leaves [main] exactly when the README exists and
    cannot be read, or the write is attempted and fails.  When the updater
    attempts the write or throws, none of its console lines is an error;
    when it does neither, its console is exactly one error line.  The write
    succeeds silently or not at all: the line [README.md updated.] is
    logged exactly when the write returns.  Over a README that is missing,
    or that can be read and written, [updateReadmeIO] is [updateReadme]. *)
Theorem updater_writes_iff README_FILE file writeOk mdTable :
  let u := updateReadmeIO README_FILE file writeOk mdTable in
  (is_Some (writeCall u) ↔
   ∃ doc, file = ReadmeReadable doc
          ∧ occursIn startMarker doc ∧ occursIn endMarker doc)
  ∧ (∀ c, writeCall u = Some c →
       ∃ doc, file = ReadmeReadable doc ∧ c = newContent doc mdTable)
  ∧ (uncaught u = Some ReadFailed ↔ file = ReadmeUnreadable)
  ∧ (uncaught u = Some WriteFailed ↔ is_Some (writeCall u) ∧ writeOk = false)
  ∧ (is_Some (writeCall u) ∨ is_Some (uncaught u) →
       ∀ m, ConsoleError m ∉ updaterConsole u)
  ∧ (writeCall u = None → uncaught u = None →
       ∃ m, updaterConsole u = [ConsoleError m])
  ∧ (ConsoleLog (js "README.md updated.") ∈ updaterConsole u ↔
     is_Some (writeCall u) ∧ uncaught u = None)
  ∧ (file ≠ ReadmeUnreadable → writeOk = true →
       writeCall u = written (updateReadme README_FILE (readableContent file) mdTable)
       ∧ updaterConsole u
         = console (updateReadme README_FILE (readableContent file) mdTable)
       ∧ uncaught u = None).
Proof.
  assert (Hlog : ∀ m (l : list ConsoleEntry),
            Forall (λ e, ∀ m', e ≠ ConsoleError m') l → ConsoleError m ∉ l).
  { intros m l Hl Hin. rewrite Forall_forall in Hl. by apply (Hl _ Hin m). }
  unfold updateReadmeIO, updateReadme.
  destruct file as [| |doc]; cbn zeta; cbn [readableContent].
  - cbn [writeCall updaterConsole uncaught written console].
    split_and!; try done.
    + split; [by intros [? [=]]|]. by intros (doc' & [=] & _).
    + split; [done|]. by intros [[? [=]] _].
    + by intros [[? [=]]|[? [=]]].
    + eauto.
    + split; [|by intros [[? [=]] _]].
      intros Hin. apply elem_of_cons in Hin as [[=]|Hin].
      by apply elem_of_nil in Hin.
  - cbn [writeCall updaterConsole uncaught].
    split_and!; try done.
    + split; [by intros [? [=]]|]. by intros (doc' & [=] & _).
    + split; [done|]. by intros [[? [=]] _].
    + intros _ m Hin. by apply elem_of_nil in Hin.
    + split; [|by intros [[? [=]] _]].
      intros Hin. by apply elem_of_nil in Hin.
  - assert (Hfound : negb (indexOf doc startMarker =? -1)%Z
                     && negb (indexOf doc endMarker =? -1)%Z = true
                     ↔ occursIn startMarker doc ∧ occursIn endMarker doc).
    { destruct (Z.eqb_spec (indexOf doc startMarker) (-1)) as [Es|Es];
        destruct (Z.eqb_spec (indexOf doc endMarker) (-1)) as [Ee|Ee];
        cbn [negb andb].
      1-3: split; [done|]; intros [Hs He];
        try (by apply indexOf_absent in Es); by apply indexOf_absent in Ee.
      split; [intros _|done]. split.
      - destruct (indexOf_found _ _ Es) as (pre & post & _ & -> & _).
        by exists pre, post.
      - destruct (indexOf_found _ _ Ee) as (pre & post & _ & -> & _).
        by exists pre, post. }
    destruct (negb (indexOf doc startMarker =? -1)%Z
              && negb (indexOf doc endMarker =? -1)%Z) eqn:Hm.
    + apply proj1 in Hfound. specialize (Hfound eq_refl).
      destruct writeOk; cbn [writeCall updaterConsole uncaught written console].
      * split_and!; try done.
        -- split; [|eauto]. intros _. by exists doc.
        -- intros c [= <-]. by exists doc.
        -- split; [done|]. by intros [_ [=]].
        -- intros _ m. apply Hlog. by repeat constructor.
        -- split; [eauto|]. intros _. right; left.
      * split_and!; try done.
        -- split; [|eauto]. intros _. by exists doc.
        -- intros c [= <-]. by exists doc.
        -- intros _ m. apply Hlog. by repeat constructor.
        -- split; [|by intros [_ [=]]].
           intros Hin. apply elem_of_cons in Hin as [[=]|Hin].
           by apply elem_of_nil in Hin.
    + assert (¬ (occursIn startMarker doc ∧ occursIn endMarker doc)) as Hno.
      { intros H. apply Hfound in H. discriminate H. }
      cbn [writeCall updaterConsole uncaught written console].
      split_and!; try done.
      * split; [by intros [? [=]]|]. intros (doc' & [= <-] & Hs & He).
        by destruct Hno.
      * split; [done|]. by intros [[? [=]] _].
      * by intros [[? [=]]|[? [=]]].
      * eauto.
      * split; [|by intros [[? [=]] _]].
        intros Hin. apply elem_of_cons in Hin as [[=]|Hin].
        by apply elem_of_nil in Hin.
Qed.

(** The two failing outcomes, on a README with both markers. *)
Example updateReadmeIO_unreadable :
  updateReadmeIO (js "README.md") ReadmeUnreadable true (js "T")
  = {| writeCall := None; updaterConsole := []; uncaught := Some ReadFailed |}.
Proof. reflexivity. Qed.

Example updateReadmeIO_write_fails :
  updateReadmeIO (js "README.md")
    (ReadmeReadable (startMarker ++ js "old" ++ endMarker)) false (js "T")
  = {| writeCall :=
         Some (startMarker ++ nl ++ nl ++ js "T" ++ nl ++ endMarker);
       updaterConsole := [ConsoleLog (js "Updating README.md...")];
       uncaught := Some WriteFailed |}.
Proof. vm_compute. reflexivity. Qed.

(** An occurrence of a pattern in a text that has a character foreign to
    the pattern lies on one side of that character. *)
Lemma occurrence_beside (c : N) (a b : jsstring) :
  ∀ (p x y : jsstring), c ∉ p →
  a ++ c :: b = x ++ p ++ y →
  (∃ y', a = x ++ p ++ y') ∨ (∃ x', x = a ++ c :: x' ∧ b = x' ++ p ++ y).
Proof.
  induction a as [|d a IH]; intros p x y Hc E.
  - destruct x as [|d' x].
    + destruct p as [|c' p]; [left; by exists []|].
      injection E as <- _. destruct Hc. left.
    + injection E as <- E. right. by exists x.
  - destruct x as [|d' x].
    + destruct p as [|d' p]; [left; by exists (d :: a)|].
      injection E as <- E.
      destruct (IH p [] y) as [[y' ->]|(x' & Hx & _)]; [|done|..].
      * intros Hin. apply Hc. by right.
      * left. by exists y'.
      * by destruct a.
    + injection E as <- E.
      destruct (IH p x y Hc E) as [[y' ->]|(x' & -> & ->)].
      * left. by exists y'.
      * right. by exists x'.
Qed.

Lemma marker_chars :
  (10 ∉ startMarker) ∧ (10 ∉ endMarker)
  ∧ startMarker = 0x3C :: tail startMarker ∧ (0x3C ∉ tail startMarker)
  ∧ endMarker = 0x3C :: tail endMarker ∧ (0x3C ∉ tail endMarker).
Proof.
  split_and!; try reflexivity; intros Hin; vm_compute in Hin;
    repeat (apply elem_of_cons in Hin as [Hin|Hin]; [discriminate Hin|]);
    by apply elem_of_nil in Hin.
Qed.

(** Two occurrences, one of each marker, lie apart. *)
Lemma marker_occurrences_apart (ps qs pe qe : jsstring) :
  ps ++ startMarker ++ qs = pe ++ endMarker ++ qe →
  (length ps + length startMarker ≤ length pe
   ∨ length pe + length endMarker ≤ length ps)%nat.
Proof.
  destruct marker_chars as (_ & _ & ES & HS & EE & HE).
  assert (length startMarker = S (length (tail startMarker))) as Ls by done.
  assert (length endMarker = S (length (tail endMarker))) as Le by done.
  rewrite Ls, Le. rewrite ES at 1. rewrite EE at 1.
  set (SM' := tail startMarker) in *. set (EM' := tail endMarker) in *.
  cbn [app]. intros E.
  (* the end marker's tail against the start marker's first character *)
  pose proof E as E1.
  rewrite (cons_middle 0x3C pe), app_assoc in E1.
  apply (occurrence_beside 0x3C ps _ _ _ _ HE) in E1
    as [[y' E1]|(x' & E1 & E1')].
  { right. rewrite E1, !length_app. cbn [length]. lia. }
  (* the start marker's tail against the end marker's first character *)
  pose proof E as E2. symmetry in E2.
  rewrite (cons_middle 0x3C ps), app_assoc in E2.
  apply (occurrence_beside 0x3C pe _ _ _ _ HS) in E2
    as [[y'' E2]|(x'' & E2 & E2')].
  { left. rewrite E2, !length_app. cbn [length]. lia. }
  (* both first characters inside the other marker: the same place *)
  exfalso.
  apply (f_equal length) in E1 as L1. apply (f_equal length) in E2 as L2.
  rewrite !length_app in L1, L2. cbn [length] in L1, L2.
  assert (x' = []) as -> by (destruct x'; [done|cbn [length] in *; lia]).
  rewrite app_nil_l in E1'. vm_compute in E1'. discriminate E1'.
Qed.

(** X13.  When both markers are found they do not overlap: either the start
    marker ends before the end marker begins, or the end marker ends before
    the start marker begins. *)
Theorem markers_do_not_overlap readmeContent :
  indexOf readmeContent startMarker ≠ (-1)%Z →
  indexOf readmeContent endMarker ≠ (-1)%Z →
  (indexOf readmeContent startMarker + Z.of_nat (length startMarker)
     ≤ indexOf readmeContent endMarker)%Z
  ∨ (indexOf readmeContent endMarker + Z.of_nat (length endMarker)
       ≤ indexOf readmeContent startMarker)%Z.
Proof.
  intros Hs He.
  destruct (indexOf_found _ _ Hs) as (ps & qs & -> & Es & _).
  destruct (indexOf_found _ _ He) as (pe & qe & -> & Ee & _).
  destruct (marker_occurrences_apart ps qs pe qe) as [H|H]; [congruence|..].
  - left. lia.
  - right. lia.
Qed.

Lemma markers_do_not_overlap_witness :
  indexOf exReadme startMarker ≠ (-1)%Z
  ∧ indexOf exReadme endMarker ≠ (-1)%Z
  ∧ ((indexOf exReadme startMarker + Z.of_nat (length startMarker)
        ≤ indexOf exReadme endMarker)%Z
     ∨ (indexOf exReadme endMarker + Z.of_nat (length endMarker)
          ≤ indexOf exReadme startMarker)%Z).
Proof.
  assert (indexOf exReadme startMarker ≠ (-1)%Z) as H1 by (by vm_compute).
  assert (indexOf exReadme endMarker ≠ (-1)%Z) as H2 by (by vm_compute).
  split_and!; [exact H1|exact H2|].
  exact (markers_do_not_overlap exReadme H1 H2).
Defined.

Lemma app_prefix {A} (a b c d : list A) :
  a ++ b = c ++ d → (length a ≤ length c)%nat → ∃ e, c = a ++ e.
Proof.
  intros E Hle. exists (drop (length a) c).
  rewrite <-(take_drop (length a) c) at 1. f_equal.
  rewrite <-(take_app_le c d) by done. rewrite <-E. by rewrite take_app_length.
Qed.

(** [indexOf] answers the place of an occurrence that has none before it. *)
Lemma indexOf_first s p pre post :
  s = pre ++ p ++ post →
  (∀ x y, s = x ++ p ++ y → (length pre ≤ length x)%nat) →
  indexOf s p = Z.of_nat (length pre).
Proof.
  intros E Hmin.
  assert (indexOf s p ≠ (-1)%Z) as Hf.
  { intros Habs. apply indexOf_absent in Habs. apply Habs. by exists pre, post. }
  destruct (indexOf_found _ _ Hf) as (pre0 & post0 & -> & E0 & Hmin0).
  apply Hmin in E0. apply Hmin0 in E. lia.
Qed.

(** The new content of a README whose first markers are where the
    decomposition says. *)
Lemma newContent_at pre mid post mdTable :
  let doc := pre ++ startMarker ++ mid ++ endMarker ++ post in
  indexOf doc startMarker = Z.of_nat (length pre) →
  indexOf doc endMarker = Z.of_nat (length (pre ++ startMarker ++ mid)) →
  newContent doc mdTable
  = pre ++ startMarker ++ (nl ++ nl ++ mdTable ++ nl) ++ endMarker ++ post.
Proof.
  intros doc Es Ee. unfold newContent, substring2, substring1.
  rewrite Es, Ee, Nat2Z.id.
  replace (Z.to_nat (Z.of_nat (length pre) + Z.of_nat (length startMarker))
           - Z.to_nat 0)%nat
    with (length (pre ++ startMarker)) by (rewrite length_app; lia).
  change (drop (Z.to_nat 0) doc) with doc. unfold doc.
  rewrite (app_assoc pre startMarker), take_app_length.
  rewrite (app_assoc (pre ++ startMarker) mid).
  rewrite <-(app_assoc pre startMarker mid), drop_app_length.
  by rewrite <-!app_assoc.
Qed.

(** X14.  When the start marker ends before the end marker begins and the
    table that was written does not itself contain the end marker, a second
    update replaces that table: updating with a table and then with
    another gives what updating with the other alone gives, and updating
    twice with the same table changes nothing the second time. *)
Theorem update_overwrites_previous_table readmeContent mdTable mdTable' :
  indexOf readmeContent startMarker ≠ (-1)%Z →
  (indexOf readmeContent startMarker + Z.of_nat (length startMarker)
     ≤ indexOf readmeContent endMarker)%Z →
  ¬ occursIn endMarker mdTable →
  newContent (newContent readmeContent mdTable) mdTable'
  = newContent readmeContent mdTable'
  ∧ newContent (newContent readmeContent mdTable) mdTable
    = newContent readmeContent mdTable.
Proof.
  intros Hs Hle HT.
  destruct (indexOf_found _ _ Hs) as (pre & post0 & Es & Hks & Hmins).
  assert (indexOf readmeContent endMarker ≠ (-1)%Z) as He by lia.
  destruct (indexOf_found _ _ He) as (pre1 & post & Ee & Hke & Hmine).
  (* the decomposition of the document *)
  assert (∃ mid, pre1 = pre ++ startMarker ++ mid) as [mid ->].
  { destruct (app_prefix (pre ++ startMarker) post0 pre1 (endMarker ++ post))
      as [mid ->].
    - rewrite <-app_assoc. congruence.
    - rewrite length_app. lia.
    - exists mid. by rewrite <-app_assoc. }
  assert (readmeContent = pre ++ startMarker ++ mid ++ endMarker ++ post) as ->
    by (by rewrite Hke, <-!app_assoc).
  clear Hks Hke Hs He Hle post0.
  set (doc := pre ++ startMarker ++ mid ++ endMarker ++ post) in *.
  assert (∀ T, newContent doc T
               = pre ++ startMarker ++ (nl ++ nl ++ T ++ nl) ++ endMarker ++ post)
    as Hnew by (intros T; by apply newContent_at).
  destruct marker_chars as (HnS & HnE & _).
  (* the markers of the new content are where the table is *)
  assert (∀ T', newContent (newContent doc mdTable) T' = newContent doc T')
    as Hagain.
  { intros T'. rewrite (Hnew mdTable), (Hnew T').
    apply (newContent_at pre (nl ++ nl ++ mdTable ++ nl) post T').
    - apply (indexOf_first _ _ _
               ((nl ++ nl ++ mdTable ++ nl) ++ endMarker ++ post)); [done|].
      intros x y E.
      rewrite (app_assoc pre startMarker) in E.
      change ((nl ++ nl ++ mdTable ++ nl) ++ endMarker ++ post)
        with (10 :: (nl ++ mdTable ++ nl) ++ endMarker ++ post) in E.
      apply (occurrence_beside 10 _ _ _ _ _ HnS) in E as [[y' E]|(x' & -> & _)].
      + apply (Hmins x (y' ++ mid ++ endMarker ++ post)). unfold doc.
        rewrite (app_assoc pre startMarker), E. by rewrite <-!app_assoc.
      + rewrite !length_app. lia.
    - apply (indexOf_first _ _ _ post); [by rewrite <-!app_assoc|].
      intros x y E.
      rewrite (app_assoc pre startMarker) in E.
      assert ((nl ++ nl ++ mdTable ++ nl) ++ endMarker ++ post
              = 10 :: 10 :: mdTable ++ 10 :: endMarker ++ post) as Eframe
        by (unfold nl; by rewrite <-!app_assoc).
      rewrite Eframe in E. clear Eframe.
      apply (occurrence_beside 10 _ _ _ _ _ HnE) in E as [[y' E]|(x1 & -> & E)].
      { apply (f_equal length) in E as L. rewrite !length_app in L.
        assert (length (pre ++ startMarker ++ mid) ≤ length x)%nat as Hx.
        { apply (Hmine x (y' ++ mid ++ endMarker ++ post)). unfold doc.
          rewrite (app_assoc pre startMarker), E. by rewrite <-!app_assoc. }
        rewrite !length_app in Hx. assert (0 < length endMarker)%nat by (cbn; lia).
        lia. }
      apply (occurrence_beside 10 [] _ _ _ _ HnE) in E as [[y' E]|(x2 & -> & E)].
      { by destruct x1. }
      apply (occurrence_beside 10 _ _ _ _ _ HnE) in E as [[y' E]|(x3 & -> & _)].
      { destruct HT. by exists x2, y'. }
      repeat (rewrite ?length_app; cbn [length nl]). lia. }
  split; apply Hagain.
Qed.

Lemma update_overwrites_previous_table_witness :
  indexOf exReadme startMarker ≠ (-1)%Z
  ∧ (indexOf exReadme startMarker + Z.of_nat (length startMarker)
       ≤ indexOf exReadme endMarker)%Z
  ∧ ¬ occursIn endMarker (js "| a |")
  ∧ newContent (newContent exReadme (js "| a |")) (js "| b |")
    = newContent exReadme (js "| b |").
Proof.
  assert (indexOf exReadme startMarker ≠ (-1)%Z) as H1 by (by vm_compute).
  assert (indexOf exReadme startMarker + Z.of_nat (length startMarker)
            ≤ indexOf exReadme endMarker)%Z as H2 by (by vm_compute).
  assert (¬ occursIn endMarker (js "| a |")) as H3
    by (apply indexOf_absent; reflexivity).
  split_and!; [exact H1|exact H2|exact H3|].
  exact (proj1 (update_overwrites_previous_table exReadme (js "| a |")
                  (js "| b |") H1 H2 H3)).
Defined.

(** X15.  When the end marker is found before the start marker, the update
    leaves both markers where they were, so the next run finds them in the
    same wrong order, and the README grows by more than the table on every
    run: by at least the two markers and the three line breaks besides. *)
Theorem reversed_markers_grow readmeContent mdTable :
  indexOf readmeContent startMarker ≠ (-1)%Z →
  indexOf readmeContent endMarker ≠ (-1)%Z →
  (indexOf readmeContent endMarker < indexOf readmeContent startMarker)%Z →
  indexOf (newContent readmeContent mdTable) startMarker
  = indexOf readmeContent startMarker
  ∧ indexOf (newContent readmeContent mdTable) endMarker
    = indexOf readmeContent endMarker
  ∧ (length readmeContent + length mdTable + 65
     ≤ length (newContent readmeContent mdTable))%nat.
Proof.
  intros Hs He Hlt.
  destruct (indexOf_found _ _ Hs) as (ps & qs & Es & Hks & Hmins).
  destruct (indexOf_found _ _ He) as (pe & qe & Ee & Hke & Hmine).
  assert (length pe + length endMarker ≤ length ps)%nat as Hap.
  { destruct (marker_occurrences_apart ps qs pe qe) as [H|H];
      [congruence|lia|done]. }
  destruct (app_prefix (pe ++ endMarker) qe ps (startMarker ++ qs))
    as [m Hps]; [rewrite <-app_assoc; congruence|by rewrite length_app|].
  assert (newContent readmeContent mdTable
          = (ps ++ startMarker) ++ (nl ++ nl ++ mdTable ++ nl)
            ++ endMarker ++ qe) as Hnew.
  { unfold newContent, substring2, substring1. rewrite Es, Ee, Nat2Z.id.
    replace (Z.to_nat (Z.of_nat (length ps) + Z.of_nat (length startMarker))
             - Z.to_nat 0)%nat
      with (length (ps ++ startMarker)) by (rewrite length_app; lia).
    change (drop (Z.to_nat 0) readmeContent) with readmeContent.
    assert (take (length (ps ++ startMarker)) readmeContent = ps ++ startMarker)
      as -> by (rewrite Hks at 1; by rewrite app_assoc, take_app_length).
    assert (drop (length pe) readmeContent = endMarker ++ qe) as ->
      by (rewrite Hke at 1; by rewrite drop_app_length).
    by rewrite <-!app_assoc. }
  rewrite Hnew, Es, Ee. split_and!.
  - apply (indexOf_first _ _ _ ((nl ++ nl ++ mdTable ++ nl) ++ endMarker ++ qe));
      [by rewrite <-!app_assoc|].
    intros x y E. destruct (le_lt_dec (length ps) (length x)) as [|Hx]; [done|].
    destruct (app_prefix (x ++ startMarker) y (ps ++ startMarker)
                ((nl ++ nl ++ mdTable ++ nl) ++ endMarker ++ qe)) as [e He'].
    + by rewrite <-app_assoc.
    + rewrite !length_app. lia.
    + apply (Hmins x (e ++ qs)). rewrite Hks.
      rewrite app_assoc, He'. by rewrite <-!app_assoc.
  - apply (indexOf_first _ _ _
             (m ++ startMarker ++ (nl ++ nl ++ mdTable ++ nl) ++ endMarker ++ qe)).
    { rewrite Hps. by rewrite <-!app_assoc. }
    intros x y E. destruct (le_lt_dec (length pe) (length x)) as [|Hx]; [done|].
    rewrite Hps in E.
    destruct (app_prefix (x ++ endMarker) y (pe ++ endMarker)
                (m ++ startMarker ++ (nl ++ nl ++ mdTable ++ nl)
                 ++ endMarker ++ qe)) as [e He'].
    + rewrite <-!app_assoc in *. congruence.
    + rewrite !length_app. lia.
    + apply (Hmine x (e ++ qe)). rewrite Hke.
      rewrite app_assoc, He'. by rewrite <-!app_assoc.
  - rewrite Hke at 1. repeat (rewrite ?length_app; cbn [length nl]).
    assert (length startMarker = 32%nat) as -> by done.
    assert (length endMarker = 30%nat) as Le by done. rewrite Le in *. lia.
Qed.

Lemma reversed_markers_grow_witness :
  indexOf exReversedReadme startMarker ≠ (-1)%Z
  ∧ indexOf exReversedReadme endMarker ≠ (-1)%Z
  ∧ (indexOf exReversedReadme endMarker < indexOf exReversedReadme startMarker)%Z
  ∧ (length exReversedReadme + length (js "TABLE") + 65
     ≤ length (newContent exReversedReadme (js "TABLE")))%nat.
Proof.
  assert (indexOf exReversedReadme startMarker ≠ (-1)%Z) as H1 by (by vm_compute).
  assert (indexOf exReversedReadme endMarker ≠ (-1)%Z) as H2 by (by vm_compute).
  assert (indexOf exReversedReadme endMarker
          < indexOf exReversedReadme startMarker)%Z as H3 by (by vm_compute).
  split_and!; [exact H1|exact H2|exact H3|].
  exact (proj2 (proj2 (reversed_markers_grow exReversedReadme (js "TABLE")
                         H1 H2 H3))).
Defined.

(** ** Team names *)

Lemma removeFirst_at pre p post :
  (∀ x y, pre ++ p ++ post = x ++ p ++ y → (length pre ≤ length x)%nat) →
  removeFirst (pre ++ p ++ post) p = pre ++ post.
Proof.
  intros Hmin. unfold removeFirst.
  rewrite (indexOf_first _ p pre post eq_refl Hmin).
  destruct (Z.ltb_spec (Z.of_nat (length pre)) 0); [lia|].
  rewrite Nat2Z.id, take_app_length. f_equal.
  rewrite app_assoc. apply drop_app_length'. by rewrite length_app.
Qed.

Lemma removeFirst_prefix p rest : removeFirst (p ++ rest) p = rest.
Proof.
  apply (removeFirst_at [] p rest). intros x y _. cbn. lia.
Qed.

(** X16.  For a team name in which [.txt] does not occur, the file
    [summary_<team>.txt] passes the file name test and yields the team
    name.  More generally the second [replace] removes the first [.txt] of
    the name, not the one at its end: whatever follows the first [.txt]
    stays in the team name. *)
Theorem teamNameOf_summary_file t rest :
  ¬ occursIn (js ".txt") t →
  teamNameOf (js "summary_" ++ t ++ js ".txt" ++ rest) = t ++ rest
  ∧ startsWith (js "summary_" ++ t ++ js ".txt") (js "summary_") = true
  ∧ endsWith (js "summary_" ++ t ++ js ".txt") (js ".txt") = true.
Proof.
  intros Hno. split_and!.
  - unfold teamNameOf. rewrite removeFirst_prefix.
    apply removeFirst_at. intros x y E.
    change (js ".txt" ++ rest) with (0x2E :: js "txt" ++ rest) in E.
    change (js ".txt" ++ y) with ([0x2E] ++ js "txt" ++ y) in E.
    rewrite app_assoc in E.
    apply (occurrence_beside 0x2E t) in E as [[y' E]|(x' & E & _)].
    + destruct Hno. exists x, y'. by rewrite E, <-app_assoc.
    + apply (f_equal length) in E. rewrite !length_app in E.
      cbn [length] in E. lia.
    + intros Hin. vm_compute in Hin.
      repeat (apply elem_of_cons in Hin as [Hin|Hin]; [discriminate Hin|]).
      by apply elem_of_nil in Hin.
  - apply startsWith_true. by eexists.
  - unfold endsWith. apply startsWith_true.
    exists (reverse t ++ reverse (js "summary_")).
    by rewrite !reverse_app, <-!app_assoc.
Qed.

Lemma teamNameOf_summary_file_witness :
  ¬ occursIn (js ".txt") (js "alice")
  ∧ teamNameOf (js "summary_" ++ js "alice" ++ js ".txt" ++ js ".txt")
    = js "alice" ++ js ".txt".
Proof.
  assert (¬ occursIn (js ".txt") (js "alice")) as H
    by (apply indexOf_absent; reflexivity).
  split; [exact H|].
  exact (proj1 (teamNameOf_summary_file (js "alice") (js ".txt") H)).
Defined.

(** ** The list of branches *)

Lemma dropWhile_head_id p l :
  match l with c :: _ => p c = false | [] => True end → dropWhile p l = l.
Proof. destruct l as [|c l]; [done|]. cbn [dropWhile]. by intros ->. Qed.

Lemma parseBranches_filter_origin b :
  startsWith b (js "origin/") = true →
  ∃ n, b = js "origin/" ++ n ∧ removeFirst b (js "origin/") = n.
Proof.
  intros [n ->]%startsWith_true. exists n. split; [done|].
  apply removeFirst_prefix.
Qed.

(** X17.  A name is among the parsed branches exactly when some line of the
    listing, trimmed, is [origin/] followed by the name and holds no [->]:
    symbolic references, branches of other remotes, and branches whose name
    contains [->] are never listed. *)
Theorem parseBranches_spec branchesOutput n :
  n ∈ parseBranches branchesOutput ↔
  ∃ line, line ∈ splitLines branchesOutput
          ∧ trim line = js "origin/" ++ n
          ∧ ¬ occursIn (js "->") (trim line).
Proof.
  unfold parseBranches.
  rewrite list_elem_of_In, in_map_iff. split.
  - intros (b & <- & Hb). apply filter_In in Hb as [Hb HP].
    apply in_map_iff in Hb as (line & <- & Hline).
    apply andb_prop in HP as [HP Hstart]. apply andb_prop in HP as [_ Harrow].
    destruct (parseBranches_filter_origin _ Hstart) as (n & E & ->).
    exists line. split_and!; [by apply list_elem_of_In|done|].
    apply indexOf_absent. unfold includes in Harrow.
    apply negb_true_iff in Harrow. rewrite negb_false_iff in Harrow.
    by apply Z.eqb_eq in Harrow.
  - intros (line & Hline & E & Harrow). exists (trim line). split.
    + rewrite E. apply removeFirst_prefix.
    + apply filter_In. split.
      * apply in_map_iff. exists line. by rewrite <-list_elem_of_In.
      * apply indexOf_absent in Harrow. unfold includes. rewrite Harrow, E.
        assert (startsWith (js "origin/" ++ n) (js "origin/") = true) as ->
          by (apply startsWith_true; by eexists).
        done.
Qed.

Lemma splitLines_line l rest :
  10 ∉ l → splitLines (l ++ 10 :: rest) = l :: splitLines rest.
Proof.
  induction l as [|c l IH]; intros Hl; cbn [app splitLines]; [done|].
  apply not_elem_of_cons in Hl as [Hc Hl].
  destruct (N.eqb_spec c 10) as [->|_]; [done|]. by rewrite IH.
Qed.

Lemma no_space_no_line_feed (l : jsstring) :
  Forall (λ c, isWhiteSpace c = false) l → 10 ∉ l.
Proof.
  intros Hl Hin. rewrite Forall_forall in Hl. by apply Hl in Hin.
Qed.

Lemma trim_padded pad p0 n :
  Forall (λ c, isWhiteSpace c = true) pad →
  Forall (λ c, isWhiteSpace c = false) n →
  match p0 with c :: _ => isWhiteSpace c = false | [] => False end →
  match reverse p0 with c :: _ => isWhiteSpace c = false | [] => False end →
  trim (pad ++ p0 ++ n) = p0 ++ n.
Proof.
  intros Hpad Hn Hhead Hlast. unfold trim.
  rewrite dropWhile_app_all by done.
  rewrite (dropWhile_head_id _ (p0 ++ n)) by by destruct p0.
  rewrite dropWhile_head_id; [by rewrite reverse_involutive|].
  rewrite reverse_app. apply Forall_reverse in Hn.
  destruct (reverse n) as [|c rn]; cbn [app].
  - by destruct (reverse p0).
  - by apply Forall_cons in Hn as [? _].
Qed.

Lemma branch_line_kept n :
  Forall (λ c, isWhiteSpace c = false) n → ¬ occursIn (js "->") n →
  nonEmpty (js "origin/" ++ n) && negb (includes (js "origin/" ++ n) (js "->"))
  && startsWith (js "origin/" ++ n) (js "origin/") = true.
Proof.
  intros Hn Harrow.
  assert (startsWith (js "origin/" ++ n) (js "origin/") = true) as ->
    by (apply startsWith_true; by eexists).
  assert (indexOf (js "origin/" ++ n) (js "->") = (-1)%Z) as E; [|
    unfold includes; by rewrite E].
  apply indexOf_absent. intros (x & y & E).
  change (js "origin/" ++ n) with (js "origin" ++ 0x2F :: n) in E.
  apply occurrence_beside in E as [[y' E]|(x' & _ & E)].
  - assert (indexOf (js "origin") (js "->") = (-1)%Z) as Habs by reflexivity.
    apply indexOf_absent in Habs. apply Habs. by exists x, y'.
  - apply Harrow. by exists x', y.
  - intros Hin. vm_compute in Hin.
    repeat (apply elem_of_cons in Hin as [Hin|Hin]; [discriminate Hin|]).
    by apply elem_of_nil in Hin.
Qed.

(** X18.  On a listing as [git branch -r] prints it, the line of the
    symbolic reference [origin/HEAD -> origin/<target>] first and then one
    indented line [origin/<name>] per branch, the parsed branches are the
    names, in the order of the listing, provided no name contains white
    space or [->]. *)
Theorem parseBranches_git_listing target names :
  Forall (λ c, isWhiteSpace c = false) target →
  Forall (λ n, Forall (λ c, isWhiteSpace c = false) n
               ∧ ¬ occursIn (js "->") n) names →
  parseBranches
    (js "  origin/HEAD -> origin/" ++ target ++ nl
     ++ concat (map (λ n, js "  origin/" ++ n ++ nl) names))
  = names.
Proof.
  intros Htarget Hnames. unfold parseBranches.
  (* the line of the symbolic reference *)
  rewrite (app_assoc (js "  origin/HEAD -> origin/") target).
  change (nl ++ ?r) with (10 :: r).
  rewrite splitLines_line.
  2:{ rewrite not_elem_of_app. split; [|by apply no_space_no_line_feed].
      intros Hin. vm_compute in Hin.
      repeat (apply elem_of_cons in Hin as [Hin|Hin]; [discriminate Hin|]).
      by apply elem_of_nil in Hin. }
  cbn [map List.filter].
  assert (trim (js "  origin/HEAD -> origin/" ++ target)
          = js "origin/HEAD -> origin/" ++ target) as ->.
  { apply (trim_padded (js "  ") (js "origin/HEAD -> origin/") target);
      try done. by repeat constructor. }
  assert (includes (js "origin/HEAD -> origin/" ++ target) (js "->") = true) as ->.
  { unfold includes. apply negb_true_iff, Z.eqb_neq. intros Habs.
    apply indexOf_absent in Habs. apply Habs.
    by exists (js "origin/HEAD "), (js " origin/" ++ target). }
  rewrite andb_false_r. cbn [andb].
  (* the lines of the branches, and the empty line after the last *)
  induction Hnames as [|n names [Hn Harrow] _ IH]; [done|].
  cbn [map concat]. rewrite <-!app_assoc.
  rewrite (app_assoc (js "  origin/") n).
  change (nl ++ ?r) with (10 :: r).
  rewrite splitLines_line.
  2:{ rewrite not_elem_of_app. split; [|by apply no_space_no_line_feed].
      intros Hin. vm_compute in Hin.
      repeat (apply elem_of_cons in Hin as [Hin|Hin]; [discriminate Hin|]).
      by apply elem_of_nil in Hin. }
  cbn [map List.filter].
  assert (trim (js "  origin/" ++ n) = js "origin/" ++ n) as ->.
  { apply (trim_padded (js "  ") (js "origin/") n); try done.
    by repeat constructor. }
  rewrite branch_line_kept by done. cbn [map].
  by rewrite removeFirst_prefix, IH.
Qed.

Lemma parseBranches_git_listing_witness :
  Forall (λ c, isWhiteSpace c = false) (js "main")
  ∧ Forall (λ n, Forall (λ c, isWhiteSpace c = false) n
                 ∧ ¬ occursIn (js "->") n) [js "main"; js "fix-1"]
  ∧ parseBranches
      (js "  origin/HEAD -> origin/" ++ js "main" ++ nl
       ++ concat (map (λ n, js "  origin/" ++ n ++ nl) [js "main"; js "fix-1"]))
    = [js "main"; js "fix-1"].
Proof.
  assert (Forall (λ c, isWhiteSpace c = false) (js "main")) as H1
    by (by repeat constructor).
  assert (Forall (λ n, Forall (λ c, isWhiteSpace c = false) n
                       ∧ ¬ occursIn (js "->") n) [js "main"; js "fix-1"]) as H2.
  { repeat constructor; try (apply indexOf_absent; reflexivity). }
  split_and!; [exact H1|exact H2|].
  exact (parseBranches_git_listing (js "main") [js "main"; js "fix-1"] H1 H2).
Defined.

(** ** The merged report *)

Lemma occursIn_app_l p a b : occursIn p a → occursIn p (a ++ b).
Proof. intros (x & y & ->). exists x, (y ++ b). by rewrite <-!app_assoc. Qed.

Lemma occursIn_app_r p a b : occursIn p b → occursIn p (a ++ b).
Proof. intros (x & y & ->). exists (a ++ x), y. by rewrite <-!app_assoc. Qed.

Lemma validLines_loop v lines acc :
  fold_left (pushValidLine v) lines acc
  = acc ++ omap (λ line, match lineMatch v line with
                         | Some (status, traceId) =>
                             Some (glyph status ++ js " " ++ traceId)
                         | None => None
                         end) lines.
Proof.
  revert acc. induction lines as [|line lines IH]; intros acc; simpl.
  - by rewrite app_nil_r.
  - rewrite IH. unfold pushValidLine.
    destruct (lineMatch v line) as [[status traceId]|]; [|done].
    by rewrite <-app_assoc.
Qed.

Lemma fileFacts_validLine f content team trace st :
  fileContent f = Some content →
  (team, trace, st) ∈ fileFacts Full f →
  glyph st ++ js " " ++ trace
  ∈ fold_left (pushValidLine Full) (splitLines content) [].
Proof.
  intros Hc. unfold fileFacts. rewrite Hc, validLines_loop, app_nil_l.
  intros (line & Hline & Hf)%list_elem_of_omap. apply list_elem_of_omap.
  exists line. split; [done|]. unfold lineFact in Hf.
  destruct (lineMatch Full line) as [[status traceId]|]; [|done].
  by injection Hf as _ -> ->.
Qed.

Lemma bullet_occurs l validLines :
  l ∈ validLines →
  occursIn (nl ++ js "- " ++ l ++ nl) (nl ++ renderValidLines validLines).
Proof.
  induction validLines as [|l0 ls IH]; [by intros ?%elem_of_nil|].
  intros Hin. unfold renderValidLines.
  destruct ls as [|l1 ls].
  - apply list_elem_of_singleton in Hin as ->. exists [], [].
    cbn [map join]. by rewrite app_nil_r, <-!app_assoc.
  - change (map (λ l, js "- " ++ l) (l0 :: l1 :: ls))
      with ((js "- " ++ l0) :: map (λ l, js "- " ++ l) (l1 :: ls)).
    rewrite join_cons by done.
    set (J := join nl (map (λ l, js "- " ++ l) (l1 :: ls))) in *.
    assert (nl ++ ((js "- " ++ l0) ++ nl ++ J) ++ nl
            = (nl ++ js "- " ++ l0) ++ nl ++ J ++ nl) as ->
      by (by rewrite <-!app_assoc).
    apply elem_of_cons in Hin as [->|Hin].
    + exists [], (J ++ nl). by rewrite app_nil_l, <-!app_assoc.
    + apply occursIn_app_r. by apply IH.
Qed.

Section ReportFacts.
Context (toLowerCase : jsstring → jsstring).

Lemma reportFile_grows b f r :
  ∃ suffix,
    bodyContent (reportFile toLowerCase b f r).1 = bodyContent r ++ suffix.
Proof.
  unfold reportFile. destruct (fileContent f); cbn [fst bodyContent];
    eexists; by rewrite <-?app_assoc.
Qed.

Lemma reportFiles_grows b files r :
  ∃ suffix,
    bodyContent (reportFiles toLowerCase b files r) = bodyContent r ++ suffix.
Proof.
  revert r. induction files as [|f files IH]; intros r; cbn [reportFiles].
  - exists []. by rewrite app_nil_r.
  - destruct (reportFile_grows b f r) as [s1 E1].
    destruct (reportFile toLowerCase b f r) as [r1 []]; cbn [fst] in E1.
    + destruct (IH r1) as [s2 ->]. exists (s1 ++ s2). by rewrite E1, <-app_assoc.
    + by exists s1.
Qed.

Lemma reportBranch_grows b r :
  ∃ suffix, bodyContent (reportBranch toLowerCase b r) = bodyContent r ++ suffix.
Proof.
  assert (∃ suffix, bodyContent r = bodyContent r ++ suffix) as Hsame
    by (exists []; by rewrite app_nil_r).
  unfold reportBranch. destruct (checkoutOk b); [|done].
  destruct (summariesDir b) as [entries|]; [|done].
  destruct (List.filter isSummaryFile entries) as [|f files]; [done|].
  destruct (reportFiles_grows b (f :: files)
              {| toc := toc r ++ [js "- [" ++ branchName b ++ js "](#branch-"
                                  ++ anchor toLowerCase (branchName b) ++ js ")"];
                 bodyContent := bodyContent r ++ nl ++ js "## Branch: "
                                ++ branchName b ++ nl |}) as [s ->].
  cbn [bodyContent]. eexists. by rewrite <-!app_assoc.
Qed.

Lemma report_grows branches r p :
  occursIn p (bodyContent r) →
  occursIn p
    (bodyContent (fold_left (λ r b, reportBranch toLowerCase b r) branches r)).
Proof.
  revert r. induction branches as [|b bs IH]; intros r Hp; [done|].
  cbn [fold_left]. apply IH. destruct (reportBranch_grows b r) as [s ->].
  by apply occursIn_app_l.
Qed.

Lemma reportFile_body b f r content :
  fileContent f = Some content →
  ∃ before,
    bodyContent (reportFile toLowerCase b f r).1
    = before ++ nl
      ++ renderValidLines (fold_left (pushValidLine Full) (splitLines content) []).
Proof.
  intros Hc. unfold reportFile. rewrite Hc. cbn [fst bodyContent].
  exists (bodyContent r
          ++ (nl ++ js "### " ++ teamNameOf (fileName f) ++ nl ++ nl)
          ++ js "[" ++ folderGlyph ++ js " View Traces for this Branch]("
          ++ REPO_URL ++ js "/tree/" ++ branchName b ++ js "/" ++ TRACES_REL_PATH
          ++ js ")" ++ nl).
  by rewrite <-!app_assoc.
Qed.

Lemma reportFiles_facts b files r team trace st :
  (team, trace, st) ∈ filesFacts Full files →
  occursIn (nl ++ js "- " ++ (glyph st ++ js " " ++ trace) ++ nl)
    (bodyContent (reportFiles toLowerCase b files r)).
Proof.
  revert r. induction files as [|f files IH]; intros r;
    cbn [filesFacts reportFiles]; [by intros ?%elem_of_nil|].
  destruct (fileContent f) as [content|] eqn:Hc; [|by intros ?%elem_of_nil].
  destruct (reportFile_body b f r content Hc) as [before Hbody].
  unfold reportFile in *. rewrite Hc in *. cbn [fst] in Hbody.
  intros [Hin|Hin]%elem_of_app; [|by apply IH].
  match goal with |- occursIn _ (bodyContent (reportFiles _ _ _ ?r1)) =>
    destruct (reportFiles_grows b files r1) as [s ->] end.
  apply occursIn_app_l. rewrite Hbody. apply occursIn_app_r.
  apply bullet_occurs. by eapply fileFacts_validLine.
Qed.

Lemma reportBranch_facts b r team trace st :
  (team, trace, st) ∈ extracted Full b →
  occursIn (nl ++ js "- " ++ (glyph st ++ js " " ++ trace) ++ nl)
    (bodyContent (reportBranch toLowerCase b r)).
Proof.
  unfold extracted, reportBranch. destruct (checkoutOk b); [|by intros ?%elem_of_nil].
  destruct (summariesDir b) as [entries|]; [|by intros ?%elem_of_nil].
  destruct (List.filter isSummaryFile entries) as [|f files];
    [by intros ?%elem_of_nil|].
  apply reportFiles_facts.
Qed.
End ReportFacts.

(** X19.  Every fact that enters the result table of [index.ts] is also
    listed in its merged report, on a line of its own: a bullet with the
    status glyph and the trace identifier. *)
Theorem report_lists_every_fact toLowerCase branches team trace st :
  (team, trace, st) ∈ allExtracted Full branches →
  occursIn (nl ++ js "- " ++ (glyph st ++ js " " ++ trace) ++ nl)
    (mergedContentFull toLowerCase branches).
Proof.
  intros (b & Hb & Hin)%allExtracted_elem. unfold mergedContentFull.
  do 11 apply occursIn_app_r. unfold report.
  generalize {| toc := []; bodyContent := [] |}.
  induction branches as [|b0 bs IH]; intros r; [by apply elem_of_nil in Hb|].
  cbn [fold_left]. apply elem_of_cons in Hb as [->|Hb]; [|by apply IH].
  apply report_grows. by apply (reportBranch_facts _ _ _ team).
Qed.

Lemma report_lists_every_fact_witness :
  (js "bob", js "100", Red) ∈ allExtracted Full [exB1; exB2]
  ∧ occursIn (nl ++ js "- " ++ (glyph Red ++ js " " ++ js "100") ++ nl)
      (mergedContentFull (λ s, s) [exB1; exB2]).
Proof.
  assert ((js "bob", js "100", Red) ∈ allExtracted Full [exB1; exB2]) as H
    by (vm_compute; do 2 right; left).
  split; [exact H|].
  exact (report_lists_every_fact (λ s, s) [exB1; exB2] (js "bob") (js "100")
           Red H).
Defined.

Lemma mergeFiles_grows files m : ∃ suffix, mergeFiles files m = m ++ suffix.
Proof.
  revert m. induction files as [|f files IH]; intros m; cbn [mergeFiles].
  - exists []. by rewrite app_nil_r.
  - unfold mergeFile. destruct (fileContent f) as [content|].
    + destruct (IH (m ++ (nl ++ js "--- FILE: " ++ fileName f ++ js " ---" ++ nl)
                    ++ content)) as [s ->].
      eexists. by rewrite <-!app_assoc.
    + exists []. by rewrite app_nil_r.
Qed.

Lemma mergeBranch_grows b m : ∃ suffix, mergeBranch b m = m ++ suffix.
Proof.
  assert (∃ suffix, m = m ++ suffix) as Hsame
    by (exists []; by rewrite app_nil_r).
  unfold mergeBranch. destruct (checkoutOk b); [|done].
  destruct (summariesDir b) as [entries|]; [|done].
  destruct (List.filter isSummaryFile entries) as [|f files]; [done|].
  destruct (mergeFiles_grows (f :: files)
              (m ++ (nl ++ nl ++ banner ++ nl)
               ++ (js "BRANCH: " ++ branchName b ++ nl) ++ (banner ++ nl)))
    as [s ->].
  eexists. by rewrite <-!app_assoc.
Qed.

Lemma merge_grows branches m p :
  occursIn p m → occursIn p (fold_left (λ m b, mergeBranch b m) branches m).
Proof.
  revert m. induction branches as [|b bs IH]; intros m Hp; [done|].
  cbn [fold_left]. apply IH. destruct (mergeBranch_grows b m) as [s ->].
  by apply occursIn_app_l.
Qed.

Lemma mergeFiles_content files m f content :
  f ∈ reachedFiles files → fileContent f = Some content →
  occursIn ((nl ++ js "--- FILE: " ++ fileName f ++ js " ---" ++ nl) ++ content)
    (mergeFiles files m).
Proof.
  revert m. induction files as [|f0 files IH]; intros m;
    cbn [reachedFiles mergeFiles]; [by intros ?%elem_of_nil|].
  unfold mergeFile. destruct (fileContent f0) as [c0|] eqn:E0.
  - intros [->|Hin]%elem_of_cons Hc; [|by apply IH].
    assert (c0 = content) as -> by congruence.
    match goal with |- occursIn _ (mergeFiles _ ?m1) =>
      destruct (mergeFiles_grows files m1) as [s ->] end.
    apply occursIn_app_l, occursIn_app_r. exists [], [].
    by rewrite app_nil_l, app_nil_r.
  - intros ->%list_elem_of_singleton Hc. congruence.
Qed.

(** X20.  The merged report of the simplified script reproduces, under a
    line naming the file, the whole content of every summary file that the
    loops get to and can read. *)
Theorem simplified_report_keeps_contents branches b f content :
  b ∈ branches → f ∈ summaryFiles b → fileContent f = Some content →
  occursIn ((nl ++ js "--- FILE: " ++ fileName f ++ js " ---" ++ nl) ++ content)
    (mergedContentSimplified branches).
Proof.
  intros Hb Hf Hc. unfold mergedContentSimplified.
  generalize ([] : jsstring).
  induction branches as [|b0 bs IH]; intros m; [by apply elem_of_nil in Hb|].
  cbn [fold_left]. apply elem_of_cons in Hb as [<-|Hb]; [|by apply IH].
  apply merge_grows. unfold summaryFiles, mergeBranch in *.
  destruct (checkoutOk b); [|by apply elem_of_nil in Hf].
  destruct (summariesDir b) as [entries|]; [|by apply elem_of_nil in Hf].
  destruct (List.filter isSummaryFile entries) as [|f0 files];
    [by apply elem_of_nil in Hf|].
  by apply mergeFiles_content.
Qed.

Lemma simplified_report_keeps_contents_witness :
  exB5 ∈ [exB1; exB5]
  ∧ exAlice ∈ summaryFiles exB5
  ∧ occursIn
      ((nl ++ js "--- FILE: " ++ js "summary_alice.txt" ++ js " ---" ++ nl)
       ++ (glyph Green ++ js " 100" ++ nl ++ glyph Red ++ js " 200"))
      (mergedContentSimplified [exB1; exB5]).
Proof.
  assert (exB5 ∈ [exB1; exB5]) as H1 by (right; left).
  assert (exAlice ∈ summaryFiles exB5) as H2 by (vm_compute; left).
  split_and!; [exact H1|exact H2|].
  exact (simplified_report_keeps_contents [exB1; exB5] exB5 exAlice _ H1 H2
           eq_refl).
Defined.
